(** * Way of the Warrior starter demos: the navigation core

    A shallow embedding of the navigation code of the three [main.py]
    variants of the repository (the base demo, the [v2_ui_fix_portal] demo
    and the [v10_coords_portal_fix] demo):

    - the isometric projection ([grid_to_screen] / [screen_to_grid] in the
      base demo, [grid_to_iso] / [iso_to_grid] in the later ones),
    - the grid path search [astar],
    - the path-following [Hero] ([set_path], [update]),
    - the obstacle set built by [IsoMap.__init__].

    Python integers are unbounded and are modelled by [Z]; Python floats are
    IEEE 754 binary64 and are modelled by the Standard Library's
    [spec_float] with its correctly rounded operations; [dict] and [set]
    are stdpp's [gmap] and [gset]. *)

From Stdlib Require Import ZArith List Lia.
From Stdlib Require SpecFloat.
From stdpp Require Import gmap list fin_sets.

Local Open Scope Z_scope.
Set Warnings "-clear-no-such-hyp".

(** ** Configuration constants (identical in the three variants) *)

Definition TILE_W : Z := 64.
Definition TILE_H : Z := 32.
Definition GRID_W : Z := 40.
Definition GRID_H : Z := 40.

(** A grid cell is a Python tuple [(x, y)] of two integers. *)
Abbreviation cell := (Z * Z)%type.

(** ** Outcomes of a Python call

    A call either returns, raises, or (in the model only) exhausts the
    fuel that bounds the unrolling of a [while] loop. *)

Inductive exn : Type :=
| KeyError
| ValueError
| OverflowError
| ZeroDivisionError.

Inductive result (A : Type) : Type :=
| Ok (a : A)
| Raise (e : exn)
| OutOfFuel.

Arguments Ok {A} a.
Arguments Raise {A} e.
Arguments OutOfFuel {A}.

#[global] Instance result_ret : MRet result := λ A a, Ok a.

#[global] Instance result_bind : MBind result := λ A B k r,
  match r with
  | Ok a => k a
  | Raise e => Raise e
  | OutOfFuel => OutOfFuel
  end.

#[global] Instance result_fmap : FMap result := λ A B fn r,
  match r with
  | Ok a => Ok (fn a)
  | Raise e => Raise e
  | OutOfFuel => OutOfFuel
  end.

(** A [for] loop whose body may raise. *)
Fixpoint for_each {A S : Type} (body : S → A → result S) (l : list A) (s : S)
  : result S :=
  match l with
  | [] => Ok s
  | a :: l' => s' ← body s a; for_each body l' s'
  end.

(** ** The path search

    [h] is the inner function [h(a, b)] of [astar]: the Manhattan
    distance. *)
Definition h (a b : cell) : Z := Z.abs (a.1 - b.1) + Z.abs (a.2 - b.2).

(** The inner generator [neighbors(n)]: the four axis-aligned moves, in the
    order of the source tuple, kept when in bounds and not blocked. *)
Definition neighbors (blocked : gset cell) (n : cell) : list cell :=
  filter (λ c : cell, (0 ≤ c.1 < GRID_W) ∧ (0 ≤ c.2 < GRID_H) ∧ c ∉ blocked)
         ((λ d : cell, (n.1 + d.1, n.2 + d.2)) <$> [(1, 0); (-1, 0); (0, 1); (0, -1)]).

(** The four local containers of [astar]. *)
Record search_state : Type := SearchState {
  open_set : gset cell;
  came : gmap cell cell;
  g : gmap cell Z;
  f : gmap cell Z
}.

(** The default [10**9] of [f.get(n, 10**9)] and [g.get(nb, 10**9)]. *)
Definition BIG : Z := 10 ^ 9.

(** Python's [min(iterable, key=...)]: the first element, in iteration
    order, whose key is minimal; [ValueError] on an empty iterable. *)
Definition py_min (key : cell → Z) (l : list cell) : result cell :=
  match l with
  | [] => Raise ValueError
  | c :: l' =>
      Ok (foldl (λ best n, if decide (key n < key best) then n else best) c l')
  end.

(** [open_set.remove(current)]: [KeyError] when the element is absent. *)
Definition set_remove (current : cell) (st : search_state) : result search_state :=
  if decide (current ∈ open_set st) then
    Ok (SearchState (open_set st ∖ {[current]}) (came st) (g st) (f st))
  else Raise KeyError.

(** One pass of the body of [for nb in neighbors(current)]. *)
Definition relax (goal current : cell) (st : search_state) (nb : cell)
  : result search_state :=
  match g st !! current with
  | None => Raise KeyError
  | Some gc =>
      let tentative := gc + 1 in
      if decide (tentative < default BIG (g st !! nb)) then
        Ok (SearchState ({[nb]} ∪ open_set st)
                        (<[nb := current]> (came st))
                        (<[nb := tentative]> (g st))
                        (<[nb := tentative + h nb goal]> (f st)))
      else Ok st
  end.

(** The inner loop [while current in came: ...] that walks the [came] links
    back from the goal, appending to [path]. *)
Fixpoint walk_came (fuel : nat) (cm : gmap cell cell) (current : cell)
  (path : list cell) : result (list cell) :=
  match cm !! current with
  | None => Ok path
  | Some p =>
      match fuel with
      | O => OutOfFuel
      | S k => walk_came k cm p (path ++ [p])
      end
  end.

(** [path = [current]; while ...; path.reverse(); return path]. *)
Definition reconstruct (fuel : nat) (cm : gmap cell cell) (current : cell)
  : result (list cell) :=
  reverse <$> walk_came fuel cm current [current].

Section Search.

(** The iteration order of a Python [set] is an implementation detail of
    the hash table (it depends on the history of the set).  It is a
    parameter of the model: [iter_order i s] is the order in which the
    set [s] is traversed by the [min] of the [i]-th pass of the main
    loop. *)
Variable iter_order : nat → gset cell → list cell.

(** The main [while open_set:] loop.  [i] counts the passes that expanded a
    cell (it is returned with the path, as a trace of the work done);
    [rfuel] bounds the reconstruction loop. *)
Fixpoint search (rfuel : nat) (goal : cell) (blocked : gset cell)
  (fuel : nat) (i : nat) (st : search_state) : result (list cell * nat) :=
  if decide (open_set st = ∅) then Ok ([], i)
  else
    match fuel with
    | O => OutOfFuel
    | S k =>
        current ← py_min (λ n, default BIG (f st !! n)) (iter_order i (open_set st));
        if decide (current = goal) then
          path ← reconstruct rfuel (came st) current;
          Ok (path, i)
        else
          st1 ← set_remove current st;
          st2 ← for_each (relax goal current) (neighbors blocked current) st1;
          search rfuel goal blocked k (S i) st2
    end.

(** The containers as initialised before the loop. *)
Definition init_state (start goal : cell) : search_state :=
  SearchState {[start]} ∅ {[start := 0]} {[start := h start goal]}.

End Search.

(** ** Python floats

    IEEE 754 binary64 values with round-to-nearest-even operations, and the
    conversions between [int] and [float] that the projection code uses. *)
Module F.

Import SpecFloat.

Abbreviation float := spec_float.

Definition prec : Z := 53.
Definition emax : Z := 1024.

(** [float(z)], as performed when an [int] meets a [float] in arithmetic:
    correctly rounded, [OverflowError] when out of range. *)
Definition of_int (z : Z) : result float :=
  match binary_normalize prec emax z 0 false with
  | S754_infinity _ => Raise OverflowError
  | x => Ok x
  end.

Definition add (x y : float) : float := SFadd prec emax x y.
Definition sub (x y : float) : float := SFsub prec emax x y.

(** [x / y] on floats: [ZeroDivisionError] on a zero divisor. *)
Definition div (x y : float) : result float :=
  match y with
  | S754_zero _ => Raise ZeroDivisionError
  | _ => Ok (SFdiv prec emax x y)
  end.

(** [a / b] on two small [int]s: the correctly rounded quotient.  It is
    used for [TILE_W / 2], [TILE_H / 2] and for the decimal literals
    [0.10 = 1/10] and [0.12 = 12/100], whose value is the double nearest
    to the quotient. *)
Definition ratio (a b : Z) : result float :=
  x ← of_int a; y ← of_int b; div x y.

(** [x > 0] and [x >= c]; both are [False] on a NaN. *)
Definition gt_zero (x : float) : bool := SFltb (S754_zero false) x.
Definition ge (x c : float) : bool := SFleb c x.

(** The integer [m * 2^e] truncated toward zero. *)
Definition trunc_mag (m : positive) (e : Z) : Z :=
  if decide (0 ≤ e) then Z.pos m * 2 ^ e else Z.pos m `div` 2 ^ (- e).

(** The integer nearest to [m * 2^e], halves going to the even one. *)
Definition round_mag (m : positive) (e : Z) : Z :=
  if decide (0 ≤ e) then Z.pos m * 2 ^ e
  else
    let d := 2 ^ (- e) in
    let q := Z.pos m `div` d in
    let r := Z.pos m `mod` d in
    if decide (2 * r < d) then q
    else if decide (d < 2 * r) then q + 1
    else if Z.even q then q else q + 1.

Definition to_int (mag : positive → Z → Z) (x : float) : result Z :=
  match x with
  | S754_zero _ => Ok 0
  | S754_finite s m e => Ok (if s then - mag m e else mag m e)
  | S754_infinity _ => Raise OverflowError
  | S754_nan => Raise ValueError
  end.

(** [int(x)] and [round(x)]. *)
Definition int (x : float) : result Z := to_int trunc_mag x.
Definition round (x : float) : result Z := to_int round_mag x.

End F.

(** ** The [Hero] dataclass

    [path] is [None] or a list; the other fields are integers, and the
    timer is a float. *)
Record Hero : Type := MkHero {
  gx : Z;
  gy : Z;
  hp : Z;
  mp : Z;
  level : Z;
  gold : Z;
  path : option (list cell);
  step_timer : F.float
}.

(** [Hero.set_path], the same text in the three variants. *)
Definition set_path (self : Hero) (p : list cell) : Hero :=
  let p' :=
    match p with
    | c :: t => if decide (c = (gx self, gy self)) then t else p
    | [] => p
    end in
  MkHero (gx self) (gy self) (hp self) (mp self) (level self) (gold self)
         (Some p') (step_timer self).

(** The truth value of [self.path]: a non-empty list.  An agent is Moving
    when it holds, Idle otherwise. *)
Definition moving (self : Hero) : bool :=
  match path self with
  | Some (_ :: _) => true
  | _ => false
  end.

Definition position (self : Hero) : cell := (gx self, gy self).

(** ** Base demo: projection, hero update, map construction *)
Module Base.

Definition astar_trace (iter_order : nat → gset cell → list cell) (fuel : nat)
  (start goal : cell) (blocked : gset cell) : result (list cell * nat) :=
  search iter_order fuel goal blocked fuel 0%nat (init_state start goal).

Definition astar (iter_order : nat → gset cell → list cell) (fuel : nat)
  (start goal : cell) (blocked : gset cell) : result (list cell) :=
  fst <$> astar_trace iter_order fuel start goal blocked.

Definition grid_to_screen (gx gy ox oy : Z) : Z * Z :=
  let sx := (gx - gy) * (TILE_W `div` 2) + ox in
  let sy := (gx + gy) * (TILE_H `div` 2) + oy in
  (sx, sy).

Definition screen_to_grid (sx sy ox oy : Z) : result cell :=
  let x := sx - ox in
  let y := sy - oy in
  half_h ← F.ratio TILE_H 2;
  half_w ← F.ratio TILE_W 2;
  two ← F.of_int 2;
  fy ← F.of_int y;
  fx ← F.of_int x;
  a ← F.div fy half_h;
  b ← F.div fx half_w;
  qx ← F.div (F.add a b) two;
  gx ← F.int qx;
  qy ← F.div (F.sub a b) two;
  gy ← F.int qy;
  Ok (gx, gy).

(** [Hero.update]: the timer counts up to [0.12]; an exhausted path is
    cleared to [None]. *)
Definition update (self : Hero) (dt : F.float) : result Hero :=
  match path self with
  | None | Some [] => Ok self
  | Some (c :: rest) =>
      let t := F.add (step_timer self) dt in
      limit ← F.ratio 12 100;
      if F.ge t limit then
        Ok (MkHero c.1 c.2 (hp self) (mp self) (level self) (gold self)
                   (match rest with [] => None | _ => Some rest end)
                   (SpecFloat.S754_zero false))
      else
        Ok (MkHero (gx self) (gy self) (hp self) (mp self) (level self)
                   (gold self) (path self) t)
  end.

(** [IsoMap.__init__]: 120 draws from a generator, given by its state and
    its [randrange]; a drawn cell is added unless it is one of the three
    cells of the exclusion tuple. *)
Definition always_walkable : list cell := [(10, 10); (11, 10); (10, 11)].

Fixpoint fill {rng : Type} (randrange : rng → Z → Z * rng) (n : nat)
  (rnd : rng) (blocked : gset cell) : gset cell :=
  match n with
  | O => blocked
  | S n' =>
      let '(x, rnd1) := randrange rnd GRID_W in
      let '(y, rnd2) := randrange rnd1 GRID_H in
      fill randrange n' rnd2
           (if decide ((x, y) ∈ always_walkable) then blocked
            else {[(x, y)]} ∪ blocked)
  end.

Definition IsoMap_init {rng : Type} (randrange : rng → Z → Z * rng)
  (seeded : rng) : gset cell :=
  fill randrange 120 seeded ∅.

End Base.

(** ** v10 demo ([v10_coords_portal_fix]) *)
Module V10.

(** Two guards come before the loop (the same text is in the v2 demo). *)
Definition astar_trace (iter_order : nat → gset cell → list cell) (fuel : nat)
  (start goal : cell) (blocked : gset cell) : result (list cell * nat) :=
  if decide (start = goal) then Ok ([start], 0%nat)
  else if decide (goal ∈ blocked) then Ok ([], 0%nat)
  else search iter_order fuel goal blocked fuel 0%nat (init_state start goal).

Definition astar (iter_order : nat → gset cell → list cell) (fuel : nat)
  (start goal : cell) (blocked : gset cell) : result (list cell) :=
  fst <$> astar_trace iter_order fuel start goal blocked.

Definition ISO_ORIGIN_X : Z := (GRID_H - 1) * (TILE_W `div` 2).
Definition ISO_ORIGIN_Y : Z := 0.

Definition grid_to_iso (gx gy : Z) : Z * Z :=
  let iso_x := (gx - gy) * (TILE_W `div` 2) + ISO_ORIGIN_X in
  let iso_y := (gx + gy) * (TILE_H `div` 2) + ISO_ORIGIN_Y in
  (iso_x, iso_y).

(** [iso_to_grid] on the integer arguments its caller passes. *)
Definition iso_to_grid (ix iy : Z) : result cell :=
  let ix := ix - ISO_ORIGIN_X in
  let iy := iy - ISO_ORIGIN_Y in
  half_w ← F.ratio TILE_W 2;
  half_h ← F.ratio TILE_H 2;
  two ← F.of_int 2;
  fx ← F.of_int ix;
  fy ← F.of_int iy;
  a ← F.div fx half_w;
  b ← F.div fy half_h;
  gx ← F.div (F.add a b) two;
  gy ← F.div (F.sub b a) two;
  rx ← F.round gx;
  ry ← F.round gy;
  Ok (rx, ry).

(** The camera offset is applied by the callers: the drawing code adds it
    to the result of [grid_to_iso], the click handler subtracts it from the
    mouse position before [iso_to_grid]. *)
Definition cell_to_screen (c : cell) (cam : Z * Z) : Z * Z :=
  let '(iso_x, iso_y) := grid_to_iso c.1 c.2 in
  (cam.1 + iso_x, cam.2 + iso_y).

Definition screen_to_cell (pt : Z * Z) (cam : Z * Z) : result cell :=
  iso_to_grid (pt.1 - cam.1) (pt.2 - cam.2).

(** [Hero.update]: the timer counts down; one cell is taken from the path
    when it is not positive any more, and the timer is set to [0.10]. *)
Definition update (self : Hero) (dt : F.float) : result Hero :=
  match path self with
  | None | Some [] => Ok self
  | Some (c :: rest) =>
      let t := F.sub (step_timer self) dt in
      if F.gt_zero t then
        Ok (MkHero (gx self) (gy self) (hp self) (mp self) (level self)
                   (gold self) (path self) t)
      else
        interval ← F.ratio 1 10;
        Ok (MkHero c.1 c.2 (hp self) (mp self) (level self) (gold self)
                   (Some rest) interval)
  end.

(** [IsoMap.__init__] (v2 has the same text): 120 draws from the module
    generator, given by its state and its [randint]. *)
Definition always_walkable : list cell := [(10, 10); (20, 20)].

Fixpoint fill {rng : Type} (randint : rng → Z → Z → Z * rng) (n : nat)
  (rnd : rng) (blocked : gset cell) : gset cell :=
  match n with
  | O => blocked
  | S n' =>
      let '(x, rnd1) := randint rnd 0 (GRID_W - 1) in
      let '(y, rnd2) := randint rnd1 0 (GRID_H - 1) in
      fill randint n' rnd2
           (if decide ((x, y) ∈ always_walkable) then blocked
            else {[(x, y)]} ∪ blocked)
  end.

Definition IsoMap_init {rng : Type} (randint : rng → Z → Z → Z * rng)
  (seeded : rng) : gset cell :=
  fill randint 120 seeded ∅.

End V10.

(** ** v2 demo ([v2_ui_fix_portal]): its projection has no origin shift;
    [astar], [Hero] and [IsoMap.__init__] are those of the v10 demo. *)
Module V2.

Definition grid_to_iso (gx gy : Z) : Z * Z :=
  let x := (gx - gy) * (TILE_W `div` 2) in
  let y := (gx + gy) * (TILE_H `div` 2) in
  (x, y).

Definition iso_to_grid (ix iy : Z) : result cell :=
  half_w ← F.ratio TILE_W 2;
  half_h ← F.ratio TILE_H 2;
  two ← F.of_int 2;
  fx ← F.of_int ix;
  fy ← F.of_int iy;
  a ← F.div fx half_w;
  b ← F.div fy half_h;
  gx ← F.div (F.add a b) two;
  gy ← F.div (F.sub b a) two;
  rx ← F.round gx;
  ry ← F.round gy;
  Ok (rx, ry).

End V2.

(** The iteration order used to run the model on concrete inputs. *)
Definition elements_order (i : nat) (s : gset cell) : list cell := elements s.


(** ** Notions used to state the properties *)

(** A cell of the [GRID_W] x [GRID_H] grid. *)
Definition in_grid (c : cell) : Prop :=
  (0 ≤ c.1 < GRID_W) ∧ (0 ≤ c.2 < GRID_H).

(** The list of all grid cells. *)
Definition grid_cells : list cell :=
  list_prod (seqZ 0 GRID_W) (seqZ 0 GRID_H).

(** One axis-aligned unit step. *)
Definition unit_step (a b : cell) : Prop :=
  Z.abs (a.1 - b.1) + Z.abs (a.2 - b.2) = 1.

(** A move of the 4-connected grid: a unit step into a cell that is in
    bounds and not blocked. *)
Definition edge (blocked : gset cell) (a b : cell) : Prop :=
  unit_step a b ∧ in_grid b ∧ b ∉ blocked.

(** A cell sequence in which every consecutive pair is a move. *)
Fixpoint is_route (blocked : gset cell) (p : list cell) : Prop :=
  match p with
  | a :: t =>
      match t with
      | b :: _ => edge blocked a b ∧ is_route blocked t
      | [] => True
      end
  | [] => True
  end.

Definition route (blocked : gset cell) (start goal : cell) (p : list cell) : Prop :=
  head p = Some start ∧ last p = Some goal ∧ is_route blocked p.

Definition reachable (blocked : gset cell) (start goal : cell) : Prop :=
  ∃ p, route blocked start goal p.

(** The number of steps of a path that lists its cells, start included. *)
Definition steps (p : list cell) : nat := (length p - 1)%nat.

(** The set iteration orders that are possible: each lists exactly the
    members of the set. *)
Definition order_ok (iter_order : nat → gset cell → list cell) : Prop :=
  ∀ i s c, c ∈ iter_order i s ↔ c ∈ s.

(** Fuel that lets the loops of [astar] run to their end on this grid:
    one pass per grid cell, and one for the start cell. *)
Definition enough_fuel : nat := Z.to_nat (GRID_W * GRID_H + 1).

(** The cells left on the path of an agent. *)
Definition path_cells (self : Hero) : list cell := default [] (path self).

(** [advances k s s']: from [s] to [s'] the agent consumed the first [k]
    cells of its path and stands on the last of them. *)
Definition advances (k : nat) (s s' : Hero) : Prop :=
  ∃ done : list cell,
    length done = k ∧
    path_cells s = done ++ path_cells s' ∧
    position s' = default (position s) (last done).

(** The state invariant of the specification: the path is absent or
    non-empty. *)
Definition path_wf (self : Hero) : Prop :=
  match path self with
  | None => True
  | Some l => l ≠ []
  end.

(** The operations of the agent, and the state after a sequence of them. *)
Inductive hero_op : Type :=
| OpSetPath (p : list cell)
| OpUpdate (dt : F.float).

Definition apply_op (update : Hero → F.float → result Hero) (s : Hero)
  (o : hero_op) : result Hero :=
  match o with
  | OpSetPath p => Ok (set_path s p)
  | OpUpdate dt => update s dt
  end.

Definition run_ops (update : Hero → F.float → result Hero)
  (ops : list hero_op) (s : Hero) : result Hero :=
  for_each (apply_op update) ops s.

(** A [set_path] call keeps the invariant when it leaves a non-empty list. *)
Definition op_keeps_path (s : Hero) (o : hero_op) : Prop :=
  match o with
  | OpSetPath p => moving (set_path s p) = true
  | OpUpdate _ => True
  end.

(** Sequences of operations in which every [set_path] call leaves a
    non-empty list. *)
Fixpoint ops_keep_path (update : Hero → F.float → result Hero)
  (ops : list hero_op) (s : Hero) : Prop :=
  match ops with
  | [] => True
  | o :: ops' =>
      op_keeps_path s o ∧
      ∀ s', apply_op update s o = Ok s' → ops_keep_path update ops' s'
  end.

(** *** The search invariant *)

(** Walks of the move graph that leave [a], with their number of moves. *)
Inductive walk (blocked : gset cell) (a : cell) : cell → Z → Prop :=
| walk_refl : walk blocked a a 0
| walk_snoc (b c : cell) (k : Z) :
    walk blocked a b k → edge blocked b c → walk blocked a c (k + 1).

(** The cells that were expanded: scored, and not on the frontier. *)
Definition closed (st : search_state) : gset cell := dom (g st) ∖ open_set st.

(** The cells a search from [start] can ever score. *)
Definition grid_set : gset cell := list_to_set grid_cells.
Definition universe (start : cell) : gset cell := {[start]} ∪ grid_set.

(** The key of the [min] over the frontier. *)
Definition f_key (st : search_state) (n : cell) : Z := default BIG (f st !! n).

(** The invariant of the main loop of [astar]. *)
Record Inv (blocked : gset cell) (start goal : cell) (st : search_state) : Prop := {
  inv_start : g st !! start = Some 0;
  inv_open : ∀ n, n ∈ open_set st → is_Some (g st !! n);
  inv_f : ∀ n, f st !! n = (λ v, v + h n goal) <$> (g st !! n);
  inv_walk : ∀ n v, g st !! n = Some v → walk blocked start n v;
  inv_edge : ∀ n v m,
    g st !! n = Some v → n ∉ open_set st → edge blocked n m →
    ∃ w, g st !! m = Some w ∧ w ≤ v + 1;
  inv_opt : ∀ n v k,
    g st !! n = Some v → n ∉ open_set st → walk blocked start n k → v ≤ k;
  inv_came : ∀ n p,
    came st !! n = Some p →
    (p ∉ open_set st) ∧ edge blocked p n ∧
    ∃ v, g st !! p = Some v ∧ g st !! n = Some (v + 1);
  inv_came_dom : ∀ n, is_Some (g st !! n) → n ≠ start → is_Some (came st !! n);
  inv_goal : is_Some (g st !! goal) → goal ∈ open_set st;
  inv_bound : ∀ n v, g st !! n = Some v → v ≤ Z.of_nat (size (closed st))
}.

(** The effect of the [for] loop over the neighbours [nbs] of [current],
    whose score is [gc]: the cells of [nbs] with a larger score (or none)
    are relaxed, everything else is untouched. *)
Definition relaxed (gc : Z) (nbs : list cell) (st : search_state) (n : cell) : Prop :=
  n ∈ nbs ∧ gc + 1 < default BIG (g st !! n).

Definition relaxed_from (goal current : cell) (gc : Z) (nbs : list cell)
  (st st' : search_state) : Prop :=
  ∀ n,
    (relaxed gc nbs st n →
       g st' !! n = Some (gc + 1) ∧ came st' !! n = Some current ∧
       f st' !! n = Some (gc + 1 + h n goal) ∧ n ∈ open_set st') ∧
    (¬ relaxed gc nbs st n →
       g st' !! n = g st !! n ∧ came st' !! n = came st !! n ∧
       f st' !! n = f st !! n ∧ (n ∈ open_set st' ↔ n ∈ open_set st)).

(** What a finished search returns: nothing when the goal cannot be
    reached, a route of the fewest steps otherwise. *)
Definition search_post (blocked : gset cell) (start goal : cell)
  (p : list cell) : Prop :=
  (p = [] ∧ ¬ reachable blocked start goal) ∨
  (route blocked start goal p ∧
   ∀ q, route blocked start goal q → (length p ≤ length q)%nat).

(** What the main loop does from a state [st] at pass [i]: it never
    raises, it can only stop early for lack of fuel, and what it returns
    satisfies [search_post]. *)
Definition search_outcome (blocked : gset cell) (start goal : cell)
  (rfuel fuel i : nat) (st : search_state) (r : result (list cell * nat)) : Prop :=
  match r with
  | Ok (p, j) => search_post blocked start goal p ∧ (i ≤ j)%nat
  | Raise _ => False
  | OutOfFuel =>
      (fuel < size (universe start ∖ closed st))%nat ∨ (rfuel < enough_fuel)%nat
  end.

(** The same for a whole [astar] call. *)
Definition astar_outcome (blocked : gset cell) (start goal : cell)
  (fuel : nat) (r : result (list cell * nat)) : Prop :=
  match r with
  | Ok (p, j) => search_post blocked start goal p
  | Raise _ => False
  | OutOfFuel => (fuel < enough_fuel)%nat
  end.

(** *** Concrete values *)

(** The double nearest to [0.1], the literal [0.10]. *)
Definition f_0_10 : F.float := SpecFloat.S754_finite false 7205759403792794 (-56).
(** The double nearest to [0.12]. *)
Definition f_0_12 : F.float := SpecFloat.S754_finite false 8646911284551352 (-56).
(** The double [1.0]. *)
Definition f_1_0 : F.float := SpecFloat.S754_finite false 4503599627370496 (-52).
(** The double [0.0]. *)
Definition f_0_0 : F.float := SpecFloat.S754_zero false.

(** A hero standing on [(0, 0)], with the field defaults of the base
    dataclass and no path. *)
Definition hero0 : Hero := MkHero 0 0 38 24 3 109 None f_0_0.

(** The same hero, Moving along three cells with a full timer. *)
Definition hero3 : Hero :=
  MkHero 0 0 38 24 3 109 (Some [(1, 0); (2, 0); (3, 0)]) f_0_10.

(** A generator that always draws the same number. *)
Definition const_randint (v : Z) (r : unit) (lo hi : Z) : Z * unit := (v, r).
Definition const_randrange (v : Z) (r : unit) (n : Z) : Z * unit := (v, r).

(** The round trip from the offsets of a grid cell, decided by running the
    float operations. *)
Definition roundtrip_check (back : Z → Z → result cell) (c : cell) : bool :=
  match back ((c.1 - c.2) * 32) ((c.1 + c.2) * 16) with
  | Ok c' => bool_decide (c' = c)
  | _ => false
  end.

(** ** The rest of the three programs

    The helpers and the parts of [main()] that drive the navigation code:
    clamping, the mouse handler, the portal set-up and the enemy waves. *)

(** [clamp(v, lo, hi)] of the v2 and v10 demos, on the integers its call
    sites pass. *)
Definition clamp (v lo hi : Z) : Z :=
  if decide (v < lo) then lo else if decide (v > hi) then hi else v.

(** [max(0, min(GRID_W-1, gx))] and the same for [gy]: the clamping of the
    mouse handler of the base and v10 demos. *)
Definition clamp_to_grid (c : cell) : cell :=
  (Z.max 0 (Z.min (GRID_W - 1) c.1), Z.max 0 (Z.min (GRID_H - 1) c.2)).

(** The body of [if (gx,gy) not in iso.blocked: p = astar(...); if p:
    hero.set_path(p)], the same in the base and v10 demos up to the
    [astar] it calls. *)
Definition go_to (astar : cell → cell → gset cell → result (list cell))
  (blocked : gset cell) (hero : Hero) (target : cell) : result Hero :=
  if decide (target ∉ blocked) then
    p ← astar (position hero) target blocked;
    match p with
    | [] => Ok hero
    | _ :: _ => Ok (set_path hero p)
    end
  else Ok hero.

(** An enemy: the [Enemy] dataclass. *)
Module Enemy.
Record enemy : Type := Build { gx : Z; gy : Z; hp : Z }.
Definition position (e : enemy) : cell := (gx e, gy e).
End Enemy.

(** The [Portal] dataclass of the v2 demo. *)
Module Portal.
Record portal : Type := Build { gx : Z; gy : Z; active : bool; t : F.float }.
End Portal.

(** *** Base demo *)
Module BaseGame.

(** [Hero()], with the defaults of the dataclass. *)
Definition hero_init : Hero :=
  MkHero 10 10 38 24 3 109 None (SpecFloat.S754_zero false).

Definition diamond_points (cx cy : Z) : list (Z * Z) :=
  let half_w := TILE_W `div` 2 in
  let half_h := TILE_H `div` 2 in
  [(cx, cy - half_h); (cx + half_w, cy); (cx, cy + half_h); (cx - half_w, cy)].

(** The [MOUSEBUTTONDOWN] branch of the event loop, for buttons 1 and 3:
    [e.pos] is [(mx, my)], the camera is [(cam_x, cam_y)]. *)
Definition click_cell (mx my cam_x cam_y : Z) : result cell :=
  c ← Base.screen_to_grid mx my cam_x cam_y;
  Ok (clamp_to_grid c).

Definition on_click (iter_order : nat → gset cell → list cell) (fuel : nat)
  (blocked : gset cell) (hero : Hero) (mx my cam_x cam_y : Z) : result Hero :=
  target ← click_cell mx my cam_x cam_y;
  go_to (Base.astar iter_order fuel) blocked hero target.

(** One thing the loop does to the hero: a click, or the [hero.update(dt)]
    of a frame. *)
Inductive step (blocked : gset cell) : Hero → Hero → Prop :=
| step_click (iter_order : nat → gset cell → list cell) (fuel : nat)
    (s s' : Hero) (mx my cam_x cam_y : Z) :
    order_ok iter_order →
    on_click iter_order fuel blocked s mx my cam_x cam_y = Ok s' →
    step blocked s s'
| step_update (s s' : Hero) (dt : F.float) :
    Base.update s dt = Ok s' → step blocked s s'.

End BaseGame.

(** *** v10 demo *)
Module V10Game.

(** [portal = (GRID_W // 2, GRID_H // 2)]. *)
Definition portal : cell := (GRID_W `div` 2, GRID_H `div` 2).

(** The nine offsets of [for dx in (-1, 0, 1): for dy in (-1, 0, 1)]. *)
Definition around : list cell :=
  dx ← [-1; 0; 1]; dy ← [-1; 0; 1]; [(dx, dy)].

(** The loop of [main()] that makes the portal area walkable, with
    [iso.blocked.discard]. *)
Definition clear_portal (blocked : gset cell) : gset cell :=
  foldl (λ (b : gset cell) (d : cell),
           let px := portal.1 + d.1 in
           let py := portal.2 + d.2 in
           if decide ((0 ≤ px < GRID_W) ∧ (0 ≤ py < GRID_H))
           then b ∖ {[(px, py)]} else b)
        blocked around.

(** [Hero(gx=portal[0]-4, gy=portal[1]+6)]. *)
Definition hero_init : Hero :=
  MkHero (portal.1 - 4) (portal.2 + 6) 100 50 1 0 None (SpecFloat.S754_zero false).

(** The cell a click selects. *)
Definition click_cell (mx my cam_x cam_y : Z) : result cell :=
  c ← V10.iso_to_grid (mx - cam_x) (my - cam_y);
  Ok (clamp_to_grid c).

(** [cell_center] of [IsoMap.draw]: the centre of the diamond drawn for
    a cell; the markers are drawn a few pixels above it. *)
Definition cell_center (gx gy cam_x cam_y : Z) : Z * Z :=
  let '(ix, iy) := V10.grid_to_iso gx gy in
  (cam_x + ix + TILE_W `div` 2, cam_y + iy + TILE_H `div` 2).

(** The [MOUSEBUTTONDOWN] branch; [collidepoint] stands for
    [safe_rect.collidepoint], a method of the drawing toolkit. *)
Definition on_click (collidepoint : Z → Z → bool)
  (iter_order : nat → gset cell → list cell) (fuel : nat)
  (blocked : gset cell) (hero : Hero) (mx my cam_x cam_y : Z) : result Hero :=
  if collidepoint mx my then
    target ← click_cell mx my cam_x cam_y;
    go_to (V10.astar iter_order fuel) blocked hero target
  else Ok hero.

Inductive step (blocked : gset cell) : Hero → Hero → Prop :=
| step_click (collidepoint : Z → Z → bool)
    (iter_order : nat → gset cell → list cell) (fuel : nat)
    (s s' : Hero) (mx my cam_x cam_y : Z) :
    order_ok iter_order →
    on_click collidepoint iter_order fuel blocked s mx my cam_x cam_y = Ok s' →
    step blocked s s'
| step_update (s s' : Hero) (dt : F.float) :
    V10.update s dt = Ok s' → step blocked s s'.

(** The loop of [spawn_wave()]: up to [n] tries, each drawing an offset
    from the portal; a try that lands in bounds, off the obstacles and off
    the hero draws the hit points and appends an enemy; the loop stops
    at the seventh.  It returns the enemies and the counter [spawned]
    that the message reports. *)
Fixpoint spawn_loop {rng : Type} (randrange : rng → Z → Z → Z * rng)
  (blocked : gset cell) (hero : Hero) (n : nat) (rnd : rng)
  (enemies : list Enemy.enemy) (spawned : Z) : list Enemy.enemy * Z :=
  match n with
  | O => (enemies, spawned)
  | S n' =>
      let '(dx, rnd1) := randrange rnd (-4) 5 in
      let '(dy, rnd2) := randrange rnd1 (-4) 5 in
      let gx := portal.1 + dx in
      let gy := portal.2 + dy in
      if decide ((0 ≤ gx < GRID_W) ∧ (0 ≤ gy < GRID_H) ∧ ((gx, gy) ∉ blocked) ∧
                 (gx, gy) ≠ position hero) then
        let '(hp, rnd3) := randrange rnd2 6 14 in
        let enemies' := enemies ++ [Enemy.Build gx gy hp] in
        let spawned' := spawned + 1 in
        if decide (7 ≤ spawned') then (enemies', spawned')
        else spawn_loop randrange blocked hero n' rnd3 enemies' spawned'
      else spawn_loop randrange blocked hero n' rnd2 enemies spawned
  end.

Definition spawn_wave {rng : Type} (randrange : rng → Z → Z → Z * rng)
  (blocked : gset cell) (hero : Hero) (seeded : rng) (enemies : list Enemy.enemy)
  : list Enemy.enemy * Z :=
  spawn_loop randrange blocked hero 40 seeded enemies 0.

(** The [K_e] branch: the wave is spawned when the hero stands on the
    portal or next to it. *)
Definition on_key_e {rng : Type} (randrange : rng → Z → Z → Z * rng)
  (blocked : gset cell) (hero : Hero) (seeded : rng) (enemies : list Enemy.enemy)
  : list Enemy.enemy :=
  if decide (Z.abs (gx hero - portal.1) ≤ 1 ∧ Z.abs (gy hero - portal.2) ≤ 1)
  then (spawn_wave randrange blocked hero seeded enemies).1
  else enemies.

End V10Game.

(** *** v2 demo *)
Module V2Game.

(** [Hero()], with the defaults of the dataclass ([level] and [gold] are
    not fields of this variant; they are carried as zero). *)
Definition hero_init : Hero :=
  MkHero 10 10 38 24 0 0 None (SpecFloat.S754_zero false).

(** The camera of this variant starts as an [int] and becomes a [float]
    once a key has moved it: a Python number of either kind. *)
Inductive num : Type :=
| IntV (z : Z)
| FloatV (x : F.float).

(** [a - b] for an [int] and a number, and for a number and an [int]. *)
Definition int_sub (a : Z) (b : num) : result num :=
  match b with
  | IntV z => Ok (IntV (a - z))
  | FloatV x => fa ← F.of_int a; Ok (FloatV (F.sub fa x))
  end.

Definition sub_int (a : num) (b : Z) : result num :=
  match a with
  | IntV z => Ok (IntV (z - b))
  | FloatV x => fb ← F.of_int b; Ok (FloatV (F.sub x fb))
  end.

(** The conversion done by [/] with a float divisor. *)
Definition to_float (a : num) : result F.float :=
  match a with
  | IntV z => F.of_int z
  | FloatV x => Ok x
  end.

(** [iso_to_grid] on numbers of either kind. *)
Definition iso_to_grid (ix iy : num) : result cell :=
  half_w ← F.ratio TILE_W 2;
  half_h ← F.ratio TILE_H 2;
  two ← F.of_int 2;
  fx ← to_float ix;
  fy ← to_float iy;
  a ← F.div fx half_w;
  b ← F.div fy half_h;
  gx ← F.div (F.add a b) two;
  gy ← F.div (F.sub b a) two;
  rx ← F.round gx;
  ry ← F.round gy;
  Ok (rx, ry).

(** The cell a click selects: the camera is subtracted, then half a tile
    width, and the result is clamped with [clamp]. *)
Definition click_cell (mx my : Z) (cam_x cam_y : num) : result cell :=
  ix ← int_sub mx cam_x;
  iy ← int_sub my cam_y;
  ix' ← sub_int ix (TILE_W `div` 2);
  c ← iso_to_grid ix' iy;
  let gx := clamp c.1 0 (GRID_W - 1) in
  let gy := clamp c.2 0 (GRID_H - 1) in
  Ok (gx, gy).

(** Where the main loop draws the portal, enemy and path markers of a
    cell: the centre of its diamond (on an integer camera). *)
Definition marker_center (gx gy cam_x cam_y : Z) : Z * Z :=
  let '(px, py) := V2.grid_to_iso gx gy in
  (cam_x + px + TILE_W `div` 2, cam_y + py + TILE_H `div` 2).

(** The [MOUSEBUTTONDOWN] branch: no test of the target, and [set_path] is
    called with whatever [astar] returns. *)
Definition on_click (iter_order : nat → gset cell → list cell) (fuel : nat)
  (blocked : gset cell) (hero : Hero) (mx my : Z) (cam_x cam_y : num)
  : result Hero :=
  target ← click_cell mx my cam_x cam_y;
  p ← V10.astar iter_order fuel (position hero) target blocked;
  Ok (set_path hero p).

Inductive step (blocked : gset cell) : Hero → Hero → Prop :=
| step_click (iter_order : nat → gset cell → list cell) (fuel : nat)
    (s s' : Hero) (mx my : Z) (cam_x cam_y : num) :
    order_ok iter_order →
    on_click iter_order fuel blocked s mx my cam_x cam_y = Ok s' →
    step blocked s s'
| step_update (s s' : Hero) (dt : F.float) :
    V10.update s dt = Ok s' → step blocked s s'.

(** The six offsets of the wave. *)
Definition wave : list cell := [(-1, 0); (1, 0); (0, -1); (0, 1); (-2, 0); (0, 2)].

(** The [K_e] branch: on the portal, while it is active, the portal is
    switched off, the enemies are cleared and the wave is spawned. *)
Definition on_key_e (blocked : gset cell) (hero : Hero)
  (portal : Portal.portal) (enemies : list Enemy.enemy)
  : Portal.portal * list Enemy.enemy :=
  if decide (position hero = (Portal.gx portal, Portal.gy portal)) then
    if Portal.active portal then
      (Portal.Build (Portal.gx portal) (Portal.gy portal) false (Portal.t portal),
       foldl (λ (es : list Enemy.enemy) (d : cell),
                let gx := Portal.gx portal + d.1 in
                let gy := Portal.gy portal + d.2 in
                if decide ((0 ≤ gx < GRID_W) ∧ (0 ≤ gy < GRID_H) ∧ (gx, gy) ∉ blocked)
                then es ++ [Enemy.Build gx gy 10] else es)
             [] wave)
    else (portal, enemies)
  else (portal, enemies).

End V2Game.

(** *** Sequences of [update] calls *)

Definition run_updates (update : Hero → F.float → result Hero)
  (dts : list F.float) (s : Hero) : result Hero :=
  for_each update dts s.

(** The calls of a sequence that find the timer run out: with the v10
    text the first call sees the timer of the hero and the later ones the
    interval [0.10] set by the call before. *)
Fixpoint v10_all_expired (timer : F.float) (dts : list F.float) : Prop :=
  match dts with
  | [] => True
  | dt :: dts' =>
      F.gt_zero (F.sub timer dt) = false ∧ v10_all_expired f_0_10 dts'
  end.

(** With the base text the timer restarts from [0.0]. *)
Fixpoint base_all_expired (timer : F.float) (dts : list F.float) : Prop :=
  match dts with
  | [] => True
  | dt :: dts' =>
      F.ge (F.add timer dt) f_0_12 = true ∧ base_all_expired f_0_0 dts'
  end.

(** *** What the hero stands on *)

(** The hero is on a cell of the grid that is not blocked. *)
Definition on_free_cell (blocked : gset cell) (s : Hero) : Prop :=
  in_grid (position s) ∧ position s ∉ blocked.

(** Its position followed by its path is a sequence of moves. *)
Definition on_route (blocked : gset cell) (s : Hero) : Prop :=
  is_route blocked (position s :: path_cells s).

(** *** Generators that respect their bounds, and two of them *)

Definition randint_ok {rng : Type} (randint : rng → Z → Z → Z * rng) : Prop :=
  ∀ r lo hi, lo ≤ hi → lo ≤ (randint r lo hi).1 ≤ hi.

Definition randrange_ok {rng : Type} (randrange : rng → Z → Z * rng) : Prop :=
  ∀ r n, 0 < n → 0 ≤ (randrange r n).1 < n.

Definition randrange2_ok {rng : Type} (randrange : rng → Z → Z → Z * rng) : Prop :=
  ∀ r a b, a < b → a ≤ (randrange r a b).1 < b.

(** A generator that always draws the lowest number allowed. *)
Definition low_randint (r : unit) (lo hi : Z) : Z * unit := (lo, r).

(** A click on the point drawn for a grid cell, compared with the cell
    expected. *)
Definition pick_check (pick : cell → result cell) (expect : cell → cell)
  (c : cell) : bool :=
  match pick c with
  | Ok c' => bool_decide (c' = expect c)
  | _ => false
  end.

(** The heroes of the demos after a click, and [hero3] after one step. *)
Definition base_clicked : Hero :=
  MkHero 10 10 38 24 3 109 (Some [(11, 10); (11, 11); (12, 11)])
         (SpecFloat.S754_zero false).

Definition v2_clicked : Hero :=
  MkHero 10 10 38 24 0 0 (Some [(11, 10); (11, 11); (11, 12); (12, 12)])
         (SpecFloat.S754_zero false).

Definition hero3_moved : Hero :=
  MkHero 1 0 38 24 3 109 (Some [(2, 0); (3, 0)]) f_0_10.

(** *** Runs of the main loop *)



(** *** What a click does *)

(** The hero [s'] left by a click of the base or v10 demo that selects the
    cell [target]: the hero is untouched when the target is an obstacle
    or cannot be reached; otherwise [set_path] was called with a route of
    the fewest steps to the target, whose rest is the new path. *)
Definition click_result (blocked : gset cell) (s : Hero) (target : cell)
  (s' : Hero) : Prop :=
  in_grid target ∧
  (target ∈ blocked ∨ ¬ reachable blocked (position s) target → s' = s) ∧
  ((target ∉ blocked) → reachable blocked (position s) target →
   ∃ p, route blocked (position s) target p ∧
        (∀ q, route blocked (position s) target q → (length p ≤ length q)%nat) ∧
        s' = set_path s p ∧ path s' = Some (tail p)).

(** A generator that counts: it draws its state, reduced to the range,
    and moves on by seven. *)
Definition counting_randrange (r : Z) (n : Z) : Z * Z := (r `mod` n, r + 7).

(** [base_clicked] after one step. *)
Definition base_walked : Hero :=
  MkHero 11 10 38 24 3 109 (Some [(11, 11); (12, 11)]) (SpecFloat.S754_zero false).

(** * Properties *)

(** ** Map construction *)

Lemma fill_v10_keeps {rng : Type} (randint : rng → Z → Z → Z * rng) (c : cell) :
  c ∈ V10.always_walkable →
  ∀ n rnd blocked, c ∉ blocked → c ∉ V10.fill randint n rnd blocked.
Proof.
  intros Hc n. induction n as [|n IH]; intros rnd blocked Hb; simpl; [done|].
  destruct (randint rnd 0 (GRID_W - 1)) as [x rnd1].
  destruct (randint rnd1 0 (GRID_H - 1)) as [y rnd2].
  apply IH. destruct (decide _); [done|].
  rewrite elem_of_union, elem_of_singleton. intros [->|?]; done.
Qed.

Lemma fill_base_keeps {rng : Type} (randrange : rng → Z → Z * rng) (c : cell) :
  c ∈ Base.always_walkable →
  ∀ n rnd blocked, c ∉ blocked → c ∉ Base.fill randrange n rnd blocked.
Proof.
  intros Hc n. induction n as [|n IH]; intros rnd blocked Hb; simpl; [done|].
  destruct (randrange rnd GRID_W) as [x rnd1].
  destruct (randrange rnd1 GRID_H) as [y rnd2].
  apply IH. destruct (decide _); [done|].
  rewrite elem_of_union, elem_of_singleton. intros [->|?]; done.
Qed.

(** C9: whatever the generator draws, the cells of the exclusion check of
    [IsoMap.__init__] are not in the obstacle set it builds: [(10,10)] and
    [(20,20)] in the v10 (and v2) text, [(10,10)], [(11,10)] and [(10,11)]
    in the base text. *)
Theorem always_walkable_never_blocked :
  (∀ (rng : Type) (randint : rng → Z → Z → Z * rng) (seeded : rng),
      ((10, 10) ∉ V10.IsoMap_init randint seeded) ∧
      ((20, 20) ∉ V10.IsoMap_init randint seeded)) ∧
  (∀ (rng : Type) (randrange : rng → Z → Z * rng) (seeded : rng),
      ((10, 10) ∉ Base.IsoMap_init randrange seeded) ∧
      ((11, 10) ∉ Base.IsoMap_init randrange seeded) ∧
      ((10, 11) ∉ Base.IsoMap_init randrange seeded)).
Proof.
  split; intros rng rand seeded.
  - split; apply fill_v10_keeps; try set_solver;
      unfold V10.always_walkable; set_solver.
  - split; [|split]; apply fill_base_keeps; try set_solver;
      unfold Base.always_walkable; set_solver.
Qed.

(** The exclusion is what keeps a drawn cell out: a generator that always
    draws 10 leaves the v10 map empty, one that always draws 5 blocks
    [(5,5)]. *)
Example IsoMap_init_draws :
  V10.IsoMap_init (const_randint 10) tt = ∅ ∧
  V10.IsoMap_init (const_randint 5) tt = {[(5, 5)]} ∧
  Base.IsoMap_init (const_randrange 10) tt = ∅ ∧
  Base.IsoMap_init (const_randrange 5) tt = {[(5, 5)]}.
Proof. repeat split; vm_compute; reflexivity. Qed.

(** ** The projection *)

Lemma in_grid_cells (c : cell) : in_grid c → c ∈ grid_cells.
Proof.
  intros [Hx Hy]. destruct c as [x y]. simpl in *.
  apply list_elem_of_In, in_prod; apply list_elem_of_In, elem_of_seqZ; lia.
Qed.

Lemma roundtrip_check_ok (back : Z → Z → result cell) :
  forallb (roundtrip_check back) grid_cells = true →
  ∀ c, in_grid c → back ((c.1 - c.2) * 32) ((c.1 + c.2) * 16) = Ok c.
Proof.
  intros Hall c Hc. rewrite forallb_forall in Hall.
  specialize (Hall c (proj1 (list_elem_of_In _ _) (in_grid_cells c Hc))).
  unfold roundtrip_check in Hall.
  destruct (back _ _) as [c'| |]; try discriminate.
  apply bool_decide_eq_true in Hall. by subst.
Qed.

Lemma base_roundtrip_cells :
  forallb (roundtrip_check (λ x y, Base.screen_to_grid x y 0 0)) grid_cells = true.
Proof. vm_compute. reflexivity. Qed.

Lemma v10_roundtrip_cells :
  forallb (roundtrip_check
             (λ x y, V10.iso_to_grid (x + V10.ISO_ORIGIN_X) (y + V10.ISO_ORIGIN_Y)))
          grid_cells = true.
Proof. vm_compute. reflexivity. Qed.

Lemma v2_roundtrip_cells :
  forallb (roundtrip_check V2.iso_to_grid) grid_cells = true.
Proof. vm_compute. reflexivity. Qed.

Lemma screen_to_grid_shift (sx sy ox oy : Z) :
  Base.screen_to_grid sx sy ox oy = Base.screen_to_grid (sx - ox) (sy - oy) 0 0.
Proof. unfold Base.screen_to_grid. by rewrite !Z.sub_0_r. Qed.

(** C2: for every grid cell and every camera offset, projecting the cell
    to the screen and back with the same offset returns the cell: in the
    base demo ([grid_to_screen], [screen_to_grid]), in the v10 demo
    ([grid_to_iso], [iso_to_grid], with the offset added and subtracted by
    the callers), and in the v2 demo. *)
Theorem projection_round_trip (c : cell) (ox oy : Z) :
  in_grid c →
  Base.screen_to_grid (Base.grid_to_screen c.1 c.2 ox oy).1
                      (Base.grid_to_screen c.1 c.2 ox oy).2 ox oy = Ok c ∧
  V10.screen_to_cell (V10.cell_to_screen c (ox, oy)) (ox, oy) = Ok c ∧
  V10.iso_to_grid (V10.grid_to_iso c.1 c.2).1 (V10.grid_to_iso c.1 c.2).2 = Ok c ∧
  V2.iso_to_grid (V2.grid_to_iso c.1 c.2).1 (V2.grid_to_iso c.1 c.2).2 = Ok c.
Proof.
  intros Hc.
  pose proof (roundtrip_check_ok _ base_roundtrip_cells c Hc) as Hb.
  pose proof (roundtrip_check_ok _ v10_roundtrip_cells c Hc) as Hv.
  pose proof (roundtrip_check_ok _ v2_roundtrip_cells c Hc) as Hv2.
  simpl in Hb, Hv.
  change (TILE_W `div` 2) with 32 in *. change (TILE_H `div` 2) with 16 in *.
  repeat split.
  - rewrite screen_to_grid_shift. unfold Base.grid_to_screen. simpl.
    change (TILE_W `div` 2) with 32. change (TILE_H `div` 2) with 16.
    replace ((c.1 - c.2) * 32 + ox - ox) with ((c.1 - c.2) * 32) by lia.
    replace ((c.1 + c.2) * 16 + oy - oy) with ((c.1 + c.2) * 16) by lia.
    exact Hb.
  - unfold V10.screen_to_cell, V10.cell_to_screen, V10.grid_to_iso. simpl.
    change (TILE_W `div` 2) with 32. change (TILE_H `div` 2) with 16.
    replace (ox + ((c.1 - c.2) * 32 + V10.ISO_ORIGIN_X) - ox)
      with ((c.1 - c.2) * 32 + V10.ISO_ORIGIN_X) by lia.
    replace (oy + ((c.1 + c.2) * 16 + V10.ISO_ORIGIN_Y) - oy)
      with ((c.1 + c.2) * 16 + V10.ISO_ORIGIN_Y) by lia.
    exact Hv.
  - unfold V10.grid_to_iso. simpl.
    change (TILE_W `div` 2) with 32. change (TILE_H `div` 2) with 16.
    exact Hv.
  - unfold V2.grid_to_iso. simpl.
    change (TILE_W `div` 2) with 32. change (TILE_H `div` 2) with 16.
    exact Hv2.
Qed.

(** The round trip at a cell of the grid, with a camera offset. *)
Lemma projection_round_trip_witness :
  in_grid (3, 7) ∧
  V10.screen_to_cell (V10.cell_to_screen (3, 7) (12, -5)) (12, -5) = Ok (3, 7).
Proof.
  assert (Hc : in_grid (3, 7)) by (unfold in_grid, GRID_W, GRID_H; simpl; lia).
  split; [exact Hc|].
  exact (proj1 (proj2 (projection_round_trip (3, 7) 12 (-5) Hc))).
Defined.

(** ** The path-following agent *)

Lemma ratio_1_10 : F.ratio 1 10 = Ok f_0_10.
Proof. vm_compute. reflexivity. Qed.

Lemma ratio_12_100 : F.ratio 12 100 = Ok f_0_12.
Proof. vm_compute. reflexivity. Qed.

Lemma advances_0 (s s' : Hero) :
  path_cells s' = path_cells s → position s' = position s → advances 0 s s'.
Proof. intros Hp Hq. exists []. by rewrite Hp, Hq. Qed.

Lemma advances_1 (s s' : Hero) (c : cell) :
  path_cells s = c :: path_cells s' → position s' = c → advances 1 s s'.
Proof. intros Hp Hq. exists [c]. by rewrite Hp, Hq. Qed.

(** What one [update] call of the v10 demo does. *)
Lemma v10_update_cases (s : Hero) (dt : F.float) :
  ∃ s', V10.update s dt = Ok s' ∧
    match path s with
    | Some (c :: rest) =>
        if F.gt_zero (F.sub (step_timer s) dt)
        then position s' = position s ∧ path s' = path s ∧
             step_timer s' = F.sub (step_timer s) dt
        else position s' = c ∧ path s' = Some rest ∧ step_timer s' = f_0_10
    | _ => s' = s
    end.
Proof.
  unfold V10.update. rewrite ratio_1_10.
  destruct (path s) as [[|c rest]|] eqn:Hp; [by exists s | | by exists s].
  destruct (F.gt_zero _); [by eexists|].
  simpl. eexists; split; [done|]. by destruct c.
Qed.

(** What one [update] call of the base demo does. *)
Lemma base_update_cases (s : Hero) (dt : F.float) :
  ∃ s', Base.update s dt = Ok s' ∧
    match path s with
    | Some (c :: rest) =>
        if F.ge (F.add (step_timer s) dt) f_0_12
        then position s' = c ∧ step_timer s' = f_0_0 ∧
             path s' = match rest with [] => None | _ => Some rest end
        else position s' = position s ∧ path s' = path s ∧
             step_timer s' = F.add (step_timer s) dt
    | _ => s' = s
    end.
Proof.
  unfold Base.update. rewrite ratio_12_100.
  destruct (path s) as [[|c rest]|] eqn:Hp; [by exists s | | by exists s].
  simpl. destruct (F.ge _ _); eexists; (split; [done|]);
    [by destruct c | done].
Qed.

(** A small [dt] leaves a Moving agent where it is; a NaN timer does not
    hold it back, since [nan > 0] is false. *)
Example update_small_dt_and_nan :
  (∃ s', V10.update hero3 f_0_0 = Ok s' ∧ position s' = (0, 0) ∧
         path s' = path hero3 ∧ step_timer s' = f_0_10) ∧
  (∃ s', V10.update hero3 SpecFloat.S754_nan = Ok s' ∧ position s' = (1, 0)).
Proof. split; eexists; (split; [vm_compute; reflexivity|]); repeat split. Qed.

(** C3 (as the code has it): one [update] call never moves the agent by
    more than one cell, however large [dt] is.  It moves a Moving agent by
    exactly one cell when the timer has run out (v10: the timer less [dt]
    is not positive; base: the timer plus [dt] has reached [0.12]), and
    leaves position and path alone otherwise. *)
Theorem update_advances_at_most_one_cell (s : Hero) (dt : F.float) :
  (∃ s', V10.update s dt = Ok s' ∧
     (advances 0 s s' ∨ advances 1 s s') ∧
     (moving s = true → F.gt_zero (F.sub (step_timer s) dt) = false →
      advances 1 s s' ∧ step_timer s' = f_0_10) ∧
     (F.gt_zero (F.sub (step_timer s) dt) = true → advances 0 s s')) ∧
  (∃ s', Base.update s dt = Ok s' ∧
     (advances 0 s s' ∨ advances 1 s s') ∧
     (moving s = true → F.ge (F.add (step_timer s) dt) f_0_12 = true →
      advances 1 s s' ∧ step_timer s' = f_0_0) ∧
     (F.ge (F.add (step_timer s) dt) f_0_12 = false → advances 0 s s')).
Proof.
  assert (Hidle : ∀ P : Prop, advances 0 s s ∧ (false = true → P)).
  { intros P. split; [by apply advances_0 | discriminate]. }
  split.
  - destruct (v10_update_cases s dt) as (s' & Hu & Hc).
    exists s'. split; [exact Hu|]. clear Hu. unfold moving.
    destruct (path s) as [[|c rest]|] eqn:Hp.
    + subst s'. split; [left; apply (Hidle True)|].
      split; [intros Hm; discriminate Hm | intros _; apply (Hidle True)].
    + destruct (F.gt_zero (F.sub (step_timer s) dt)).
      * destruct Hc as (Hq & Hp' & _).
        assert (advances 0 s s') as H0.
        { apply advances_0; [|exact Hq]. unfold path_cells. by rewrite Hp', Hp. }
        split; [by left|]. split; [intros _ Hf; discriminate Hf | by intros _].
      * destruct Hc as (Hq & Hp' & Ht).
        assert (advances 1 s s') as H1.
        { apply (advances_1 _ _ c); [|exact Hq]. unfold path_cells.
          by rewrite Hp, Hp'. }
        split; [by right|]. split; [by intros _ _ | intros Hf; discriminate Hf].
    + subst s'. split; [left; apply (Hidle True)|].
      split; [intros Hm; discriminate Hm | intros _; apply (Hidle True)].
  - destruct (base_update_cases s dt) as (s' & Hu & Hc).
    exists s'. split; [exact Hu|]. clear Hu. unfold moving.
    destruct (path s) as [[|c rest]|] eqn:Hp.
    + subst s'. split; [left; apply (Hidle True)|].
      split; [intros Hm; discriminate Hm | intros _; apply (Hidle True)].
    + destruct (F.ge (F.add (step_timer s) dt) f_0_12).
      * destruct Hc as (Hq & Ht & Hp').
        assert (advances 1 s s') as H1.
        { apply (advances_1 _ _ c); [|exact Hq]. unfold path_cells.
          rewrite Hp, Hp'. by destruct rest. }
        split; [by right|]. split; [by intros _ _ | intros Hf; discriminate Hf].
      * destruct Hc as (Hq & Hp' & _).
        assert (advances 0 s s') as H0.
        { apply advances_0; [|exact Hq]. unfold path_cells. by rewrite Hp', Hp. }
        split; [by left|]. split; [intros _ Hf; discriminate Hf | by intros _].
    + subst s'. split; [left; apply (Hidle True)|].
      split; [intros Hm; discriminate Hm | intros _; apply (Hidle True)].
Qed.

(** C3 as stated fails: [hero3] is Moving with three cells left and a
    timer of [0.10]; with [dt = 1.0] the timer would still not be positive
    after a second cell ([0.10 - 1.0 + 0.10]), yet one [update] call moves
    it by one cell only, in the v10 demo and in the base demo. *)
Lemma update_large_dt_moves_one_cell :
  moving hero3 = true ∧
  F.gt_zero (F.add (F.sub (step_timer hero3) f_1_0) f_0_10) = false ∧
  (∃ s', V10.update hero3 f_1_0 = Ok s' ∧ position s' = (1, 0) ∧
         path s' = Some [(2, 0); (3, 0)] ∧ ¬ advances 2 hero3 s') ∧
  (∃ s', Base.update hero3 f_1_0 = Ok s' ∧ position s' = (1, 0) ∧
         path s' = Some [(2, 0); (3, 0)] ∧ ¬ advances 2 hero3 s').
Proof.
  split; [reflexivity|]. split; [vm_compute; reflexivity|].
  split; eexists; (split; [vm_compute; reflexivity|]);
    (split; [reflexivity|]); (split; [reflexivity|]);
    intros (done & Hlen & Hp & _); unfold path_cells in Hp; simpl in Hp;
    destruct done as [|a [|b [|? ?]]]; simpl in *; try discriminate.
Qed.

(** What [set_path] installs: the list without its leading cell when that
    cell is the position of the agent, the list itself otherwise. *)
Lemma set_path_trim (s : Hero) (p t : list cell) :
  p = position s :: t ∨ (p = t ∧ head p ≠ Some (position s)) →
  path (set_path s p) = Some t.
Proof.
  unfold set_path, position. simpl. intros [->|[-> Hh]].
  - by rewrite decide_True.
  - destruct t as [|c t']; [done|]. rewrite decide_False; [done|].
    intros ->. by apply Hh.
Qed.

(** C6 (as the code has it): when the path given to [set_path], less a
    leading cell equal to the position of the agent, is not empty, the
    agent is Moving with that trimmed path; position and timer are left
    as they were. *)
Theorem set_path_enters_moving (s : Hero) (p t : list cell) :
  p = position s :: t ∨ (p = t ∧ head p ≠ Some (position s)) →
  t ≠ [] →
  path (set_path s p) = Some t ∧
  moving (set_path s p) = true ∧
  position (set_path s p) = position s ∧
  step_timer (set_path s p) = step_timer s.
Proof.
  intros Hp Ht. pose proof (set_path_trim s p t Hp) as Hs.
  split; [exact Hs|]. split; [|done].
  unfold moving. rewrite Hs. by destruct t.
Qed.

Lemma set_path_enters_moving_witness :
  path (set_path hero0 [(0, 0); (1, 0)]) = Some [(1, 0)] ∧
  moving (set_path hero0 [(0, 0); (1, 0)]) = true.
Proof.
  pose proof (set_path_enters_moving hero0 [(0, 0); (1, 0)] [(1, 0)]) as H.
  destruct H as (Hp & Hm & _); [by left | done | by split].
Defined.

(** C6 as stated fails on the timer: [hero0] has the timer [0.0] of a new
    [Hero]; [set_path] makes it Moving and the timer is still [0.0], not
    the per-tile interval [0.10]. *)
Lemma set_path_keeps_timer :
  moving (set_path hero0 [(0, 0); (1, 0)]) = true ∧
  path (set_path hero0 [(0, 0); (1, 0)]) = Some [(1, 0)] ∧
  step_timer (set_path hero0 [(0, 0); (1, 0)]) = f_0_0 ∧
  step_timer (set_path hero0 [(0, 0); (1, 0)]) ≠ f_0_10.
Proof. repeat split. discriminate. Qed.

Lemma set_path_wf (s : Hero) (p : list cell) :
  moving (set_path s p) = true → path_wf (set_path s p).
Proof.
  unfold moving, path_wf. destruct (path (set_path s p)) as [[|c l]|]; done.
Qed.

Lemma base_update_wf (s s' : Hero) (dt : F.float) :
  path_wf s → Base.update s dt = Ok s' → path_wf s'.
Proof.
  intros Hw Hu. destruct (base_update_cases s dt) as (s1 & Hu1 & Hc).
  rewrite Hu1 in Hu. injection Hu as ->. clear Hu1. unfold path_wf in *.
  destruct (path s) as [[|c rest]|] eqn:Hp;
    [by destruct Hw | | by subst s'; rewrite Hp].
  destruct (F.ge _ _).
  - destruct Hc as (_ & _ & ->). by destruct rest.
  - by destruct Hc as (_ & -> & _).
Qed.

Lemma base_update_total (s : Hero) (dt : F.float) : ∃ s', Base.update s dt = Ok s'.
Proof. destruct (base_update_cases s dt) as (s' & Hu & _). eauto. Qed.

(** C7 (as the code has it): the invariant "the path is absent or
    non-empty" is kept by [update] of the base demo, which clears an
    exhausted path to [None], and by a [set_path] call that leaves a
    non-empty list: it holds after any sequence of such calls.  [set_path]
    itself always installs a list, and a hero with an empty list is as
    Idle as one with no path: [update] returns it unchanged. *)
Theorem path_invariant_kept (ops : list hero_op) (s : Hero) :
  path_wf s →
  ops_keep_path Base.update ops s →
  (∃ s', run_ops Base.update ops s = Ok s' ∧ path_wf s') ∧
  (∀ p, path (set_path s p) ≠ None) ∧
  (∀ dt, moving s = false → Base.update s dt = Ok s ∧ V10.update s dt = Ok s).
Proof.
  intros Hw Hk. split; [|split].
  - revert s Hw Hk. induction ops as [|o ops IH]; intros s Hw Hk.
    + exists s. done.
    + destruct Hk as [Ho Hk]. unfold run_ops. simpl.
      destruct o as [p|dt]; simpl in *.
      * apply IH; [by apply set_path_wf | by apply Hk].
      * destruct (base_update_total s dt) as [s1 Hs1]. rewrite Hs1. simpl.
        apply IH; [by eapply base_update_wf | by apply Hk].
  - intros p. unfold set_path. simpl. discriminate.
  - intros dt Hm. unfold moving in Hm. unfold Base.update, V10.update.
    by destruct (path s) as [[|c l]|].
Qed.

Lemma path_invariant_kept_witness :
  ∃ s', run_ops Base.update [OpSetPath [(0, 0); (1, 0)]; OpUpdate f_1_0] hero0 = Ok s'
        ∧ path_wf s'.
Proof.
  refine (proj1 (path_invariant_kept
                   [OpSetPath [(0, 0); (1, 0)]; OpUpdate f_1_0] hero0 _ _)).
  - exact I.
  - simpl. split; [reflexivity|]. intros s' _. split; [exact I|]. intros s'' _. exact I.
Defined.

(** C7 as stated fails: from [hero0], whose path is absent, [set_path]
    with the one-cell path of its own position leaves the path present and
    empty (in every variant); so does the v10 [update] that takes the last
    cell of a path. *)
Lemma path_left_empty :
  path_wf hero0 ∧
  (∃ s', run_ops V10.update [OpSetPath [(0, 0)]] hero0 = Ok s' ∧
         path s' = Some [] ∧ ¬ path_wf s') ∧
  (∃ s', run_ops Base.update [OpSetPath [(0, 0)]] hero0 = Ok s' ∧
         path s' = Some [] ∧ ¬ path_wf s') ∧
  (∃ s', run_ops V10.update [OpSetPath [(0, 0); (1, 0)]; OpUpdate f_1_0] hero0 = Ok s' ∧
         path s' = Some [] ∧ ¬ path_wf s').
Proof.
  split; [exact I|].
  repeat split; eexists; (split; [vm_compute; reflexivity|]);
    (split; [reflexivity|]); unfold path_wf; simpl; intros H; by apply H.
Qed.
(** ** The path search *)

(** *** The heuristic and the moves *)

Lemma h_self (a : cell) : h a a = 0.
Proof. unfold h. lia. Qed.

Lemma h_triangle (a b c : cell) : h a c ≤ h a b + h b c.
Proof. unfold h. lia. Qed.

Lemma neighbors_edge (blocked : gset cell) (n c : cell) :
  c ∈ neighbors blocked n ↔ edge blocked n c.
Proof.
  unfold neighbors, edge, unit_step, in_grid.
  rewrite list_elem_of_filter. simpl.
  rewrite !elem_of_cons, elem_of_nil.
  destruct n as [x y], c as [x' y']. simpl. split.
  - intros [(Hx & Hy & Hb) Hc]. split; [|done].
    destruct Hc as [Hc|[Hc|[Hc|[Hc|[]]]]]; injection Hc as -> ->; lia.
  - intros (Hs & (Hx & Hy) & Hb). split; [done|].
    assert ((x' = x + 1 ∧ y' = y + 0) ∨ (x' = x + -1 ∧ y' = y + 0) ∨
            (x' = x + 0 ∧ y' = y + 1) ∨ (x' = x + 0 ∧ y' = y + -1)) as Hd by lia.
    destruct Hd as [[-> ->]|[[-> ->]|[[-> ->]|[-> ->]]]]; auto.
Qed.

Lemma edge_not_self (blocked : gset cell) (n : cell) : ¬ edge blocked n n.
Proof. intros [Hs _]. unfold unit_step in Hs. lia. Qed.

(** The moves at two corners of the grid, and next to an obstacle. *)
Example neighbors_corners :
  neighbors ∅ (0, 0) = [(1, 0); (0, 1)] ∧
  neighbors ∅ (39, 39) = [(38, 39); (39, 38)] ∧
  neighbors {[(1, 0)]} (0, 0) = [(0, 1)].
Proof. repeat split; vm_compute; reflexivity. Qed.

(** *** Walks and routes *)

Lemma walk_nonneg (blocked : gset cell) (a b : cell) (k : Z) :
  walk blocked a b k → 0 ≤ k.
Proof. induction 1; lia. Qed.

Lemma walk_cons (blocked : gset cell) (a b c : cell) (k : Z) :
  edge blocked a b → walk blocked b c k → walk blocked a c (k + 1).
Proof.
  intros Hab Hw. induction Hw as [|c d k Hw IH Hcd].
  - apply (walk_snoc _ _ a b 0); [constructor | done].
  - by apply (walk_snoc _ _ c d).
Qed.

Lemma walk_target (blocked : gset cell) (a b : cell) (k : Z) :
  walk blocked a b k → b = a ∨ (in_grid b ∧ b ∉ blocked).
Proof. destruct 1 as [|b c k _ (_ & Hg & Hb)]; auto. Qed.

Lemma route_walk (blocked : gset cell) (p : list cell) (a b : cell) :
  route blocked a b p → walk blocked a b (Z.of_nat (length p) - 1).
Proof.
  revert a. induction p as [|c p IH]; intros a (Hh & Hl & Hr); [done|].
  simpl in Hh. injection Hh as ->.
  destruct p as [|d p].
  - simpl in Hl. injection Hl as ->. constructor.
  - destruct Hr as [Hcd Hr].
    replace (Z.of_nat (length (a :: d :: p)) - 1)
      with (Z.of_nat (length (d :: p)) - 1 + 1) by (simpl length; lia).
    apply (walk_cons _ _ d); [done|]. apply IH. split; [done|]. split; [|done].
    by rewrite last_cons_cons in Hl.
Qed.

Lemma route_snoc (blocked : gset cell) (p : list cell) (a b c : cell) :
  route blocked a b p → edge blocked b c → route blocked a c (p ++ [c]).
Proof.
  intros (Hh & Hl & Hr) Hbc. split; [|split].
  - destruct p; [done|]. done.
  - by rewrite last_snoc.
  - clear Hh. induction p as [|x p IH]; [done|].
    destruct p as [|y p].
    + simpl in Hl. injection Hl as ->. simpl. done.
    + destruct Hr as [Hxy Hr]. split; [done|]. apply IH; [|done].
      by rewrite last_cons_cons in Hl.
Qed.

(** *** [min] over the frontier *)

Lemma py_min_spec (key : cell → Z) (l : list cell) :
  l ≠ [] → ∃ c, py_min key l = Ok c ∧ c ∈ l ∧ ∀ c', c' ∈ l → key c ≤ key c'.
Proof.
  destruct l as [|a l]; [done|]. intros _. simpl. eexists. split; [done|].
  assert (∀ best : cell,
    let r := foldl (λ best n, if decide (key n < key best) then n else best) best l in
    (r = best ∨ r ∈ l) ∧ key r ≤ key best ∧ ∀ c', c' ∈ l → key r ≤ key c') as Hf.
  { induction l as [|x l IH]; intros best; simpl.
    - split; [by left|]. split; [lia|]. intros c' Hc. by apply elem_of_nil in Hc.
    - destruct (decide (key x < key best)) as [Hlt|Hge].
      + destruct (IH x) as (Hm & Hk & Hall). split; [|split].
        * right. destruct Hm as [->|Hm]; [left | by right].
        * lia.
        * intros c' [->|Hc]%elem_of_cons; auto.
      + destruct (IH best) as (Hm & Hk & Hall). split; [|split].
        * destruct Hm as [Hm|Hm]; [by left | right; by right].
        * done.
        * intros c' [->|Hc]%elem_of_cons; [lia | auto]. }
  destruct (Hf a) as (Hm & Hk & Hall). split.
  - destruct Hm as [->|Hm]; [left | by right].
  - intros c' [->|Hc]%elem_of_cons; auto.
Qed.

Lemma min_frontier (iter_order : nat → gset cell → list cell) (i : nat)
  (key : cell → Z) (s : gset cell) :
  order_ok iter_order → s ≠ ∅ →
  ∃ c, py_min key (iter_order i s) = Ok c ∧ c ∈ s ∧ ∀ c', c' ∈ s → key c ≤ key c'.
Proof.
  intros Ho Hs.
  destruct (py_min_spec key (iter_order i s)) as (c & Hc & Hin & Hmin).
  - intros Hnil. apply Hs. apply set_eq. intros x. rewrite <- (Ho i s x), Hnil.
    set_solver.
  - exists c. split; [done|]. split; [by apply (Ho i s)|].
    intros c' Hc'. apply Hmin. by apply (Ho i s).
Qed.

Lemma elements_order_ok : order_ok elements_order.
Proof. intros i s c. unfold elements_order. apply elem_of_elements. Qed.

(** *** The loop over the neighbours *)

Lemma relax_scored (goal current : cell) (gc : Z) (st : search_state) (nb : cell) :
  g st !! current = Some gc →
  relax goal current st nb =
    if decide (gc + 1 < default BIG (g st !! nb)) then
      Ok (SearchState ({[nb]} ∪ open_set st) (<[nb := current]> (came st))
                      (<[nb := gc + 1]> (g st))
                      (<[nb := gc + 1 + h nb goal]> (f st)))
    else Ok st.
Proof. intros Hg. unfold relax. by rewrite Hg. Qed.

Lemma relax_loop (goal current : cell) (gc : Z) (nbs : list cell) :
  current ∉ nbs →
  ∀ st, g st !! current = Some gc →
  ∃ st', for_each (relax goal current) nbs st = Ok st' ∧
         relaxed_from goal current gc nbs st st'.
Proof.
  induction nbs as [|a l IH]; intros Hcur st Hg.
  - exists st. split; [done|]. intros n. split; [|done].
    intros [Hn _]. by apply elem_of_nil in Hn.
  - apply not_elem_of_cons in Hcur as [Hne Hcur]. simpl.
    rewrite (relax_scored goal current gc st a Hg).
    destruct (decide (gc + 1 < default BIG (g st !! a))) as [Hlt|Hge]; simpl.
    + set (st1 := SearchState _ _ _ _).
      destruct (IH Hcur st1) as (st' & Hrun & Hrel).
      { simpl. by rewrite lookup_insert_ne. }
      exists st'. split; [done|]. intros n. subst st1.
      destruct (decide (n = a)) as [->|Hna].
      * assert (¬ relaxed gc l (SearchState ({[a]} ∪ open_set st)
                    (<[a := current]> (came st)) (<[a := gc + 1]> (g st))
                    (<[a := gc + 1 + h a goal]> (f st))) a) as Hnot.
        { intros [_ Hr]. simpl in Hr. rewrite lookup_insert_eq in Hr. simpl in Hr. lia. }
        destruct (Hrel a) as [_ Hkeep]. destruct (Hkeep Hnot) as (H1 & H2 & H3 & H4).
        simpl in *. rewrite lookup_insert_eq in H1. rewrite lookup_insert_eq in H2.
        rewrite lookup_insert_eq in H3.
        split; [|intros Hn; destruct Hn; split; [by left | done]].
        intros _. repeat split; try done. apply H4. set_solver.
      * assert (relaxed gc (a :: l) st n ↔
                relaxed gc l (SearchState ({[a]} ∪ open_set st)
                    (<[a := current]> (came st)) (<[a := gc + 1]> (g st))
                    (<[a := gc + 1 + h a goal]> (f st))) n) as Heq.
        { unfold relaxed. simpl. rewrite lookup_insert_ne by done.
          rewrite elem_of_cons. naive_solver. }
        destruct (Hrel n) as [Hyes Hno]. simpl in *.
        rewrite !lookup_insert_ne in Hno by done. split.
        -- intros Hr. by apply Hyes, Heq.
        -- intros Hr. destruct Hno as (H1 & H2 & H3 & H4); [by rewrite <- Heq|].
           repeat split; try done; rewrite H4; set_solver.
    + destruct (IH Hcur st Hg) as (st' & Hrun & Hrel).
      exists st'. split; [done|]. intros n.
      assert (relaxed gc (a :: l) st n ↔ relaxed gc l st n) as Heq.
      { unfold relaxed. rewrite elem_of_cons. split; [|naive_solver].
        intros [[->|Hn] Hr]; [lia | done]. }
      rewrite Heq. apply Hrel.
Qed.

Section SearchProofs.

Variable blocked : gset cell.
Variables start goal : cell.

(** *** The invariant holds before the loop *)

Lemma init_inv : Inv blocked start goal (init_state start goal).
Proof.
  split; unfold init_state; simpl.
  - apply lookup_singleton_eq.
  - intros n ->%elem_of_singleton. rewrite lookup_singleton_eq. eauto.
  - intros n. destruct (decide (n = start)) as [->|Hn].
    + by rewrite !lookup_singleton_eq.
    + by rewrite !lookup_singleton_ne.
  - intros n v [<- <-]%lookup_singleton_Some. constructor.
  - intros n v m [<- <-]%lookup_singleton_Some Hn. set_solver.
  - intros n v k [<- <-]%lookup_singleton_Some Hn. set_solver.
  - intros n p Hc. by rewrite lookup_empty in Hc.
  - intros n [v [<- <-]%lookup_singleton_Some] Hn. done.
  - intros [v [<- <-]%lookup_singleton_Some]. set_solver.
  - intros n v [<- <-]%lookup_singleton_Some. lia.
Qed.

(** *** Consequences of the invariant *)

Lemma f_key_eq (st : search_state) (n : cell) (v : Z) :
  Inv blocked start goal st → g st !! n = Some v → f_key st n = v + h n goal.
Proof. intros HI Hg. unfold f_key. by rewrite (inv_f _ _ _ _ HI), Hg. Qed.

Lemma elem_of_closed (st : search_state) (n : cell) :
  n ∈ closed st ↔ is_Some (g st !! n) ∧ n ∉ open_set st.
Proof. unfold closed. by rewrite elem_of_difference, elem_of_dom. Qed.

(** Every walk from the start ends in an expanded cell, or passes through
    the frontier at a cell whose score plus remaining distance is within
    the length of the walk. *)
Lemma frontier (st : search_state) (n : cell) (k : Z) :
  Inv blocked start goal st → walk blocked start n k →
  n ∈ closed st ∨
  ∃ m v, m ∈ open_set st ∧ g st !! m = Some v ∧ v + h m n ≤ k.
Proof.
  intros HI Hw. induction Hw as [|b c k Hw IH Hbc].
  - destruct (decide (start ∈ open_set st)) as [Ho|Ho].
    + right. exists start, 0. rewrite h_self. split; [done|].
      split; [apply (inv_start _ _ _ _ HI) | lia].
    + left. apply elem_of_closed. split; [|done].
      rewrite (inv_start _ _ _ _ HI). eauto.
  - destruct IH as [Hb|(m & v & Hm & Hg & Hle)].
    + apply elem_of_closed in Hb as [[vb Hvb] Hbo].
      pose proof (inv_opt _ _ _ _ HI b vb k Hvb Hbo Hw) as Hopt.
      destruct (inv_edge _ _ _ _ HI b vb c Hvb Hbo Hbc) as (w & Hw' & Hwle).
      destruct (decide (c ∈ open_set st)) as [Ho|Ho].
      * right. exists c, w. rewrite h_self. split; [done|]. split; [done|]. lia.
      * left. apply elem_of_closed. eauto.
    + right. exists m, v. split; [done|]. split; [done|].
      destruct Hbc as (Hs & _). change (h b c = 1) in Hs.
      pose proof (h_triangle m b c). lia.
Qed.

(** The cell taken by [min] has its final score. *)
Lemma picked_optimal (st : search_state) (current : cell) (gc k : Z) :
  Inv blocked start goal st →
  current ∈ open_set st →
  (∀ m, m ∈ open_set st → f_key st current ≤ f_key st m) →
  g st !! current = Some gc →
  walk blocked start current k → gc ≤ k.
Proof.
  intros HI Hcur Hmin Hg Hw.
  destruct (frontier st current k HI Hw) as [Hc|(m & v & Hm & Hgm & Hle)].
  - apply elem_of_closed in Hc as [_ Hc]. done.
  - specialize (Hmin m Hm).
    rewrite (f_key_eq st current gc HI Hg), (f_key_eq st m v HI Hgm) in Hmin.
    pose proof (h_triangle m current goal). lia.
Qed.

Lemma scored_in_universe (st : search_state) (n : cell) :
  Inv blocked start goal st → is_Some (g st !! n) → n ∈ universe start.
Proof.
  intros HI [v Hv]. unfold universe.
  destruct (walk_target _ _ _ _ (inv_walk _ _ _ _ HI n v Hv)) as [->|[Hg _]].
  - by apply elem_of_union_l, elem_of_singleton.
  - apply elem_of_union_r. unfold grid_set.
    apply elem_of_list_to_set. by apply in_grid_cells.
Qed.

Lemma score_nonneg (st : search_state) (n : cell) (v : Z) :
  Inv blocked start goal st → g st !! n = Some v → 0 ≤ v.
Proof. intros HI Hv. eapply walk_nonneg, (inv_walk _ _ _ _ HI), Hv. Qed.


Lemma universe_size : (size (universe start) ≤ enough_fuel)%nat.
Proof.
  unfold universe. rewrite size_union_alt, size_singleton.
  assert (size (grid_set ∖ {[start]}) ≤ size grid_set)%nat as H1
    by (apply subseteq_size; intros x [Hx _]%elem_of_difference; exact Hx).
  assert (size grid_set = 1600%nat) as H2 by (vm_compute; reflexivity).
  change enough_fuel with 1601%nat. lia.
Qed.

Lemma closed_in_universe (st : search_state) :
  Inv blocked start goal st → closed st ⊆ universe start.
Proof.
  intros HI n [Hn _]%elem_of_closed. by eapply scored_in_universe.
Qed.

Lemma score_small (st : search_state) (n : cell) (v : Z) :
  Inv blocked start goal st → g st !! n = Some v → v + 1 < BIG.
Proof.
  intros HI Hv. pose proof (inv_bound _ _ _ _ HI n v Hv) as Hb.
  pose proof (subseteq_size _ _ (closed_in_universe st HI)) as Hs.
  pose proof universe_size as Hu. change enough_fuel with 1601%nat in Hu.
  change BIG with 1000000000. lia.
Qed.

(** *** One pass of the loop keeps the invariant *)

Section Step.

Variables (st st' : search_state) (current : cell) (gc : Z).
Hypothesis HI : Inv blocked start goal st.
Hypothesis Hcur : current ∈ open_set st.
Hypothesis Hmin : ∀ m, m ∈ open_set st → f_key st current ≤ f_key st m.
Hypothesis Hgoal : current ≠ goal.
Hypothesis Hgc : g st !! current = Some gc.
Hypothesis Hrel :
  relaxed_from goal current gc (neighbors blocked current)
    (SearchState (open_set st ∖ {[current]}) (came st) (g st) (f st)) st'.

Lemma step_view (n : cell) :
  (relaxed gc (neighbors blocked current) st n ∧
   edge blocked current n ∧ (n ∉ closed st) ∧ n ≠ current ∧
   g st' !! n = Some (gc + 1) ∧ came st' !! n = Some current ∧
   f st' !! n = Some (gc + 1 + h n goal) ∧ n ∈ open_set st') ∨
  (¬ relaxed gc (neighbors blocked current) st n ∧
   g st' !! n = g st !! n ∧ came st' !! n = came st !! n ∧
   f st' !! n = f st !! n ∧ (n ∈ open_set st' ↔ n ∈ open_set st ∧ n ≠ current)).
Proof.
  destruct (Hrel n) as [Hyes Hno]. unfold relaxed in *. simpl in *.
  destruct (decide (n ∈ neighbors blocked current ∧
                    gc + 1 < default BIG (g st !! n))) as [Hr|Hr].
  - left. destruct (Hyes Hr) as (H1 & H2 & H3 & H4).
    destruct Hr as [Hnb Hlt].
    assert (edge blocked current n) as He by (by apply neighbors_edge).
    split; [done|]. split; [done|]. split; [|split; [|done]].
    + intros [[v Hv] Hno']%elem_of_closed.
      assert (walk blocked start n (gc + 1)) as Hw.
      { eapply walk_snoc; [|exact He]. apply (inv_walk _ _ _ _ HI), Hgc. }
      pose proof (inv_opt _ _ _ _ HI n v _ Hv Hno' Hw).
      rewrite Hv in Hlt. simpl in Hlt. lia.
    + intros ->. by apply edge_not_self in He.
  - right. destruct (Hno Hr) as (H1 & H2 & H3 & H4).
    repeat split; try done; set_solver.
Qed.

Lemma current_view :
  g st' !! current = Some gc ∧ current ∉ open_set st'.
Proof.
  destruct (step_view current) as [(_ & _ & _ & Hne & _)|(_ & H1 & _ & _ & H4)];
    [done|]. rewrite H1. split; [done|]. rewrite H4. tauto.
Qed.

Lemma closed_view (n : cell) :
  n ∈ closed st → g st' !! n = g st !! n ∧ n ∉ open_set st'.
Proof.
  intros Hn.
  destruct (step_view n) as [(_ & _ & Hnc & _)|(_ & H1 & _ & _ & H4)]; [done|].
  split; [done|]. rewrite H4. apply elem_of_closed in Hn. tauto.
Qed.

Lemma step_closed : closed st' = closed st ∪ {[current]}.
Proof.
  apply set_eq. intros n. rewrite elem_of_union, elem_of_singleton. split.
  - intros [Hs Ho]%elem_of_closed.
    destruct (step_view n) as [(_ & _ & _ & _ & _ & _ & _ & Hin)|(_ & H1 & _ & _ & H4)];
      [done|].
    rewrite H1 in Hs. rewrite H4 in Ho.
    destruct (decide (n = current)) as [->|Hne]; [by right|].
    left. apply elem_of_closed. split; [done|]. tauto.
  - intros [Hn| ->]; apply elem_of_closed.
    + destruct (closed_view n Hn) as [H1 H2]. rewrite H1.
      apply elem_of_closed in Hn. tauto.
    + destruct current_view as [H1 H2]. rewrite H1. eauto.
Qed.

Lemma step_size : size (closed st') = S (size (closed st)).
Proof.
  rewrite step_closed, size_union, size_singleton; [lia|].
  apply disjoint_singleton_r. intros [_ Hc]%elem_of_closed. done.
Qed.

Lemma step_inv : Inv blocked start goal st'.
Proof.
  pose proof (inv_walk _ _ _ _ HI current gc Hgc) as Hwc.
  pose proof (walk_nonneg _ _ _ _ Hwc) as Hgc0.
  split.
  - destruct (step_view start) as [([_ Hlt] & _)|(_ & H1 & _)].
    + rewrite (inv_start _ _ _ _ HI) in Hlt. simpl in Hlt. lia.
    + rewrite H1. apply (inv_start _ _ _ _ HI).
  - intros n Hn.
    destruct (step_view n) as [(_ & _ & _ & _ & H1 & _)|(_ & H1 & _ & _ & H4)].
    + rewrite H1. eauto.
    + rewrite H1. apply (inv_open _ _ _ _ HI). by apply H4.
  - intros n.
    destruct (step_view n) as [(_ & _ & _ & _ & H1 & _ & H3 & _)|(_ & H1 & _ & H3 & _)].
    + by rewrite H1, H3.
    + rewrite H1, H3. apply (inv_f _ _ _ _ HI).
  - intros n v Hv.
    destruct (step_view n) as [(_ & He & _ & _ & H1 & _)|(_ & H1 & _)].
    + rewrite H1 in Hv. injection Hv as <-. by eapply walk_snoc.
    + rewrite H1 in Hv. by apply (inv_walk _ _ _ _ HI).
  - intros n v m Hv Ho He.
    destruct (step_view n) as [(_ & _ & _ & _ & _ & _ & _ & Hin)|(_ & H1 & _ & _ & H4)];
      [done|].
    rewrite H1 in Hv. rewrite H4 in Ho.
    destruct (decide (n = current)) as [->|Hne].
    + rewrite Hgc in Hv. injection Hv as <-.
      destruct (step_view m) as [(_ & _ & _ & _ & G1 & _)|(Hr & G1 & _)].
      * exists (gc + 1). split; [done | lia].
      * rewrite G1. destruct (g st !! m) as [w|] eqn:Hw.
        -- exists w. split; [done|].
           destruct (decide (w ≤ gc + 1)); [done|]. exfalso. apply Hr.
           split; [by apply neighbors_edge|]. rewrite Hw. simpl. lia.
        -- exfalso. apply Hr. split; [by apply neighbors_edge|].
           rewrite Hw. simpl. by eapply score_small.
    + assert (n ∉ open_set st) as Hno by tauto.
      destruct (inv_edge _ _ _ _ HI n v m Hv Hno He) as (w & Hw & Hle).
      destruct (step_view m) as [([_ Hlt] & _ & _ & _ & G1 & _)|(_ & G1 & _)].
      * exists (gc + 1). split; [done|]. rewrite Hw in Hlt. simpl in Hlt. lia.
      * exists w. by rewrite G1.
  - intros n v k Hv Ho Hw.
    destruct (step_view n) as [(_ & _ & _ & _ & _ & _ & _ & Hin)|(_ & H1 & _ & _ & H4)];
      [done|].
    rewrite H1 in Hv. rewrite H4 in Ho.
    destruct (decide (n = current)) as [->|Hne].
    + rewrite Hgc in Hv. injection Hv as <-.
      by eapply (picked_optimal st current).
    + apply (inv_opt _ _ _ _ HI n v k Hv); [tauto | done].
  - intros n p Hc.
    destruct (step_view n) as [(_ & He & _ & _ & H1 & H2 & _)|(_ & H1 & H2 & _)].
    + rewrite H2 in Hc. injection Hc as <-.
      destruct current_view as [G1 G2]. split; [done|]. split; [done|].
      exists gc. by rewrite G1, H1.
    + rewrite H2 in Hc.
      destruct (inv_came _ _ _ _ HI n p Hc) as (Hpo & He & v & Hv & Hn).
      destruct (closed_view p) as [G1 G2].
      { apply elem_of_closed. eauto. }
      split; [done|]. split; [done|]. exists v. by rewrite G1, H1.
  - intros n Hs Hne.
    destruct (step_view n) as [(_ & _ & _ & _ & _ & H2 & _)|(_ & H1 & H2 & _)].
    + rewrite H2. eauto.
    + rewrite H2. rewrite H1 in Hs. by apply (inv_came_dom _ _ _ _ HI).
  - intros Hs.
    destruct (step_view goal) as [(_ & _ & _ & _ & _ & _ & _ & Hin)|(_ & H1 & _ & _ & H4)];
      [done|].
    rewrite H1 in Hs. apply H4. split; [|done]. by apply (inv_goal _ _ _ _ HI).
  - intros n v Hv. rewrite step_size.
    destruct (step_view n) as [(_ & _ & _ & _ & H1 & _)|(_ & H1 & _)].
    + rewrite H1 in Hv. injection Hv as <-.
      pose proof (inv_bound _ _ _ _ HI current gc Hgc). lia.
    + rewrite H1 in Hv. pose proof (inv_bound _ _ _ _ HI n v Hv). lia.
Qed.

End Step.

(** *** The reconstruction loop *)

Lemma walk_came_unfold (fuel : nat) (cm : gmap cell cell) (c : cell)
  (acc : list cell) :
  walk_came fuel cm c acc =
    match cm !! c with
    | None => Ok acc
    | Some p =>
        match fuel with
        | O => OutOfFuel
        | S k => walk_came k cm p (acc ++ [p])
        end
    end.
Proof. by destruct fuel. Qed.

(** From a scored cell the [came] links lead back to the start in as many
    hops as its score; the loop needs that much fuel and no more. *)
Lemma walk_came_chain (st : search_state) :
  Inv blocked start goal st →
  ∀ (k : nat) (n : cell),
    g st !! n = Some (Z.of_nat k) →
    ∃ l, length l = k ∧
         route blocked start n (reverse (n :: l)) ∧
         ∀ (fuel : nat) (acc : list cell),
           walk_came fuel (came st) n acc =
             if decide (k ≤ fuel)%nat then Ok (acc ++ l) else OutOfFuel.
Proof.
  intros HI k. induction k as [|k IH]; intros n Hg.
  - assert (n = start) as ->.
    { destruct (decide (n = start)) as [|Hne]; [done|].
      destruct (inv_came_dom _ _ _ _ HI n) as [p Hp]; [eauto | done |].
      destruct (inv_came _ _ _ _ HI n p Hp) as (_ & _ & v & Hv & Hn).
      pose proof (score_nonneg st p v HI Hv). rewrite Hg in Hn.
      injection Hn as Hn. lia. }
    assert (came st !! start = None) as Hc.
    { destruct (came st !! start) as [p|] eqn:Hp; [|done].
      destruct (inv_came _ _ _ _ HI start p Hp) as (_ & _ & v & Hv & Hn).
      pose proof (score_nonneg st p v HI Hv).
      rewrite (inv_start _ _ _ _ HI) in Hn. injection Hn as Hn. lia. }
    exists []. split; [done|]. split; [done|].
    intros fuel acc. rewrite app_nil_r, walk_came_unfold, Hc.
    by rewrite decide_True by lia.
  - destruct (inv_came_dom _ _ _ _ HI n) as [p Hp]; [eauto| |].
    { intros ->. rewrite (inv_start _ _ _ _ HI) in Hg. injection Hg as Hg. lia. }
    destruct (inv_came _ _ _ _ HI n p Hp) as (_ & He & v & Hv & Hn).
    rewrite Hg in Hn. injection Hn as Hn.
    assert (v = Z.of_nat k) as -> by lia.
    destruct (IH p Hv) as (l & Hlen & Hr & Hrun).
    exists (p :: l). split; [simpl; lia|]. split.
    + rewrite reverse_cons. by eapply route_snoc.
    + intros fuel acc. rewrite walk_came_unfold, Hp.
      destruct fuel as [|fuel].
      * destruct (decide (S k ≤ 0)%nat); [lia | done].
      * rewrite Hrun, <- app_assoc.
        destruct (decide (k ≤ fuel)%nat), (decide (S k ≤ S fuel)%nat);
          try lia; done.
Qed.

(** *** The main loop *)

Section Loop.

Variable iter_order : nat → gset cell → list cell.
Hypothesis Horder : order_ok iter_order.
Variable rfuel : nat.

Lemma search_empty (fuel i : nat) (st : search_state) :
  open_set st = ∅ →
  search iter_order rfuel goal blocked fuel i st = Ok ([], i).
Proof. intros He. destruct fuel; simpl; by rewrite decide_True. Qed.

Lemma search_0 (i : nat) (st : search_state) :
  open_set st ≠ ∅ →
  search iter_order rfuel goal blocked 0 i st = OutOfFuel.
Proof. intros He. simpl. by rewrite decide_False. Qed.

Lemma search_S (k i : nat) (st : search_state) :
  open_set st ≠ ∅ →
  search iter_order rfuel goal blocked (S k) i st =
    (current ← py_min (λ n, default BIG (f st !! n)) (iter_order i (open_set st));
     if decide (current = goal) then
       path ← reconstruct rfuel (came st) current; Ok (path, i)
     else
       st1 ← set_remove current st;
       st2 ← for_each (relax goal current) (neighbors blocked current) st1;
       search iter_order rfuel goal blocked k (S i) st2).
Proof. intros He. simpl. by rewrite decide_False. Qed.

(** Nothing is reachable beyond an exhausted frontier. *)
Lemma exhausted_unreachable (st : search_state) :
  Inv blocked start goal st → open_set st = ∅ → ¬ reachable blocked start goal.
Proof.
  intros HI He [q Hq]. apply route_walk in Hq.
  destruct (frontier st goal _ HI Hq) as [[Hs Ho]%elem_of_closed|(m & _ & Hm & _)].
  - apply Ho. by apply (inv_goal _ _ _ _ HI).
  - rewrite He in Hm. by apply not_elem_of_empty in Hm.
Qed.

(** What one pass does on a non-empty frontier. *)
Lemma loop_pass (st : search_state) (i : nat) :
  Inv blocked start goal st → open_set st ≠ ∅ →
  ∃ current gc,
    py_min (λ n, default BIG (f st !! n)) (iter_order i (open_set st)) = Ok current ∧
    current ∈ open_set st ∧
    g st !! current = Some gc ∧
    (∀ k, walk blocked start current k → gc ≤ k) ∧
    (current ≠ goal →
     ∃ st',
       set_remove current st =
         Ok (SearchState (open_set st ∖ {[current]}) (came st) (g st) (f st)) ∧
       for_each (relax goal current) (neighbors blocked current)
         (SearchState (open_set st ∖ {[current]}) (came st) (g st) (f st)) = Ok st' ∧
       Inv blocked start goal st' ∧
       closed st' = closed st ∪ {[current]}).
Proof.
  intros HI He.
  destruct (min_frontier iter_order i (λ n, default BIG (f st !! n)) (open_set st)
              Horder He) as (current & Hpick & Hin & Hmin).
  destruct (inv_open _ _ _ _ HI current Hin) as [gc Hgc].
  exists current, gc. split; [done|]. split; [done|]. split; [done|]. split.
  - intros k Hw. by eapply (picked_optimal st current).
  - intros Hng.
    destruct (relax_loop goal current gc (neighbors blocked current))
      with (st := SearchState (open_set st ∖ {[current]}) (came st) (g st) (f st))
      as (st' & Hrun & Hrel).
    { intros Hc%neighbors_edge. by apply edge_not_self in Hc. }
    { done. }
    exists st'. split; [|split; [done|split]].
    + unfold set_remove. by rewrite decide_True.
    + by eapply step_inv.
    + by eapply step_closed.
Qed.

Lemma open_in_universe (st : search_state) (c : cell) :
  Inv blocked start goal st → c ∈ open_set st → c ∈ universe start ∖ closed st.
Proof.
  intros HI Hc. apply elem_of_difference. split.
  - eapply scored_in_universe; [done|]. by apply (inv_open _ _ _ _ HI).
  - intros [_ Ho]%elem_of_closed. done.
Qed.

Lemma score_fits (st : search_state) (n : cell) (v : Z) :
  Inv blocked start goal st → g st !! n = Some v →
  (Z.to_nat v ≤ enough_fuel)%nat.
Proof.
  intros HI Hv. pose proof (inv_bound _ _ _ _ HI n v Hv) as Hb.
  pose proof (subseteq_size _ _ (closed_in_universe st HI)) as Hs.
  pose proof universe_size. lia.
Qed.

Lemma search_correct (fuel : nat) :
  ∀ (i : nat) (st : search_state),
    Inv blocked start goal st →
    search_outcome blocked start goal rfuel fuel i st
      (search iter_order rfuel goal blocked fuel i st).
Proof.
  induction fuel as [|k IH]; intros i st HI;
    (destruct (decide (open_set st = ∅)) as [He|He];
     [rewrite search_empty by done; split; [|lia];
      left; split; [done | by eapply exhausted_unreachable] |]).
  - rewrite search_0 by done. left.
    destruct (set_choose_L _ He) as [c Hc].
    apply (open_in_universe st c HI) in Hc.
    destruct (decide (size (universe start ∖ closed st) = 0%nat)) as [Hz|Hz]; [|lia].
    apply size_empty_inv in Hz. pose proof (proj1 (Hz c) Hc) as Hf.
    by apply not_elem_of_empty in Hf.
  - rewrite search_S by done.
    destruct (loop_pass st i HI He) as (current & gc & Hpick & Hin & Hgc & Hopt & Hstep).
    rewrite Hpick. simpl.
    destruct (decide (current = goal)) as [->|Hng].
    + pose proof (score_nonneg st goal gc HI Hgc) as Hnn.
      pose proof (score_fits st goal gc HI Hgc) as Hfit.
      destruct (walk_came_chain st HI (Z.to_nat gc) goal) as (l & Hlen & Hr & Hrun).
      { by rewrite Z2Nat.id. }
      unfold reconstruct. rewrite Hrun.
      destruct (decide (Z.to_nat gc ≤ rfuel)%nat) as [Hle|Hgt]; simpl.
      * split; [|lia]. right. split; [done|].
        intros q Hq. apply route_walk in Hq. apply Hopt in Hq.
        rewrite length_reverse. simpl. lia.
      * right. lia.
    + destruct (Hstep Hng) as (st' & Hrm & Hrun & HI' & Hcl).
      rewrite Hrm. simpl. rewrite Hrun. simpl.
      assert (size (universe start ∖ closed st') <
              size (universe start ∖ closed st))%nat as Hlt.
      { apply subset_size. pose proof (open_in_universe st current HI Hin) as Hu.
        rewrite Hcl. revert Hu. generalize (universe start), (closed st).
        intros U C Hu. set_solver. }
      specialize (IH (S i) st' HI'). unfold search_outcome in *.
      destruct (search _ _ _ _ _ _ _) as [[p j]| |]; [|done|].
      * destruct IH. split; [done | lia].
      * destruct IH; [left | right]; lia.
Qed.

(** A search that stops with nothing, on a frontier that was not empty,
    has expanded a cell. *)
Lemma search_empty_expands (fuel i j : nat) (st : search_state) :
  Inv blocked start goal st → open_set st ≠ ∅ →
  search iter_order rfuel goal blocked fuel i st = Ok ([], j) → (i < j)%nat.
Proof.
  intros HI He Hs. destruct fuel as [|k]; [by rewrite search_0 in Hs|].
  rewrite search_S in Hs by done.
  destruct (loop_pass st i HI He) as (current & gc & Hpick & Hin & Hgc & Hopt & Hstep).
  rewrite Hpick in Hs. simpl in Hs.
  destruct (decide (current = goal)) as [->|Hng].
  - pose proof (score_nonneg st goal gc HI Hgc) as Hnn.
    destruct (walk_came_chain st HI (Z.to_nat gc) goal) as (l & Hlen & Hr & Hrun).
    { by rewrite Z2Nat.id. }
    unfold reconstruct in Hs. rewrite Hrun in Hs.
    destruct (decide (Z.to_nat gc ≤ rfuel)%nat); simpl in Hs; [|done].
    injection Hs as Hs _. apply (f_equal length) in Hs.
    rewrite length_reverse in Hs. simpl in Hs. lia.
  - destruct (Hstep Hng) as (st' & Hrm & Hrun & HI' & Hcl).
    rewrite Hrm in Hs. simpl in Hs. rewrite Hrun in Hs. simpl in Hs.
    pose proof (search_correct k (S i) st' HI') as Hout.
    rewrite Hs in Hout. destruct Hout as [_ Hle]. lia.
Qed.

End Loop.

End SearchProofs.

(** *** Whole calls *)

Lemma route_self (blocked : gset cell) (c : cell) : route blocked c c [c].
Proof. done. Qed.

Lemma route_nonempty (blocked : gset cell) (a b : cell) (q : list cell) :
  route blocked a b q → (1 ≤ length q)%nat.
Proof. intros (Hh & _). destruct q; [done | simpl; lia]. Qed.

Lemma route_goal_free (blocked : gset cell) (a b : cell) (q : list cell) :
  route blocked a b q → a ≠ b → in_grid b ∧ b ∉ blocked.
Proof.
  intros Hq Hne. apply route_walk in Hq.
  by destruct (walk_target _ _ _ _ Hq) as [->|].
Qed.

Lemma route_cells (blocked : gset cell) (p : list cell) (a b : cell) :
  route blocked a b p → Forall (λ c, in_grid c ∧ c ∉ blocked) (tail p).
Proof.
  revert a. induction p as [|c p IH]; intros a (Hh & Hl & Hr); [constructor|].
  simpl. destruct p as [|d p]; [constructor|].
  destruct Hr as [(Hs & Hg & Hb) Hr]. constructor; [done|].
  apply (IH d). split; [done|]. split; [|done]. by rewrite last_cons_cons in Hl.
Qed.

Lemma route_unit_steps (blocked : gset cell) (p : list cell) :
  is_route blocked p →
  ∀ (i : nat) (a b : cell), p !! i = Some a → p !! S i = Some b → unit_step a b.
Proof.
  induction p as [|c p IH]; intros Hr i a b Ha Hb; [done|].
  destruct p as [|d p]; [done|]. destruct Hr as [(Hs & _) Hr].
  destruct i as [|i]; simpl in *.
  - by injection Ha as <-; injection Hb as <-.
  - by apply (IH Hr i).
Qed.

Lemma base_astar_outcome (iter_order : nat → gset cell → list cell) (fuel : nat)
  (start goal : cell) (blocked : gset cell) :
  order_ok iter_order →
  astar_outcome blocked start goal fuel
    (Base.astar_trace iter_order fuel start goal blocked).
Proof.
  intros Ho. unfold Base.astar_trace.
  pose proof (search_correct blocked start goal iter_order Ho fuel fuel 0
                (init_state start goal) (init_inv blocked start goal)) as Hs.
  unfold search_outcome, astar_outcome in *.
  destruct (search _ _ _ _ _ _ _) as [[p j]| |]; [by destruct Hs | done |].
  destruct Hs as [Hs|Hs]; [|done].
  pose proof (universe_size start).
  assert (size (universe start ∖ closed (init_state start goal))
          ≤ size (universe start))%nat.
  { apply subseteq_size. intros x [Hx _]%elem_of_difference. exact Hx. }
  lia.
Qed.

Lemma v10_astar_outcome (iter_order : nat → gset cell → list cell) (fuel : nat)
  (start goal : cell) (blocked : gset cell) :
  order_ok iter_order →
  astar_outcome blocked start goal fuel
    (V10.astar_trace iter_order fuel start goal blocked).
Proof.
  intros Ho. unfold V10.astar_trace.
  destruct (decide (start = goal)) as [->|Hne].
  - right. split; [apply route_self|]. intros q Hq. by apply route_nonempty in Hq.
  - destruct (decide (goal ∈ blocked)) as [Hb|Hb].
    + left. split; [done|]. intros [q Hq].
      destruct (route_goal_free _ _ _ _ Hq Hne) as [_ Hf]. done.
    + by apply base_astar_outcome.
Qed.

(** What an outcome says of the path alone. *)
Lemma astar_cases (fuel : nat)
  (start goal : cell) (blocked : gset cell) (r : result (list cell * nat)) :
  astar_outcome blocked start goal fuel r →
  (∀ e, fst <$> r ≠ Raise e) ∧
  ((enough_fuel ≤ fuel)%nat → ∃ p, fst <$> r = Ok p ∧ search_post blocked start goal p) ∧
  (∀ p, fst <$> r = Ok p → search_post blocked start goal p).
Proof.
  intros Hr. destruct r as [[p j]| |]; simpl in *.
  - split; [done|]. split; [eauto|]. by intros p' [= <-].
  - done.
  - split; [done|]. split; [lia | done].
Qed.

(** C1: when the goal can be reached from the start through cells that are
    in bounds and not blocked, [astar] returns a path from the start to the
    goal in which every consecutive pair is one axis-aligned unit step,
    every cell after the start is in bounds and not blocked (and the
    start too, when it is a grid cell), and whose number of steps is that
    of a shortest such path.  It holds in the v10 (and v2) text and in the
    base text, for every iteration order of the frontier. *)
Theorem astar_returns_shortest_route
  (iter_order : nat → gset cell → list cell) (fuel : nat)
  (start goal : cell) (blocked : gset cell) :
  order_ok iter_order →
  (enough_fuel ≤ fuel)%nat →
  reachable blocked start goal →
  ∀ run, run = V10.astar ∨ run = Base.astar →
  ∃ p,
    run iter_order fuel start goal blocked = Ok p ∧
    head p = Some start ∧ last p = Some goal ∧
    (∀ (i : nat) (a b : cell), p !! i = Some a → p !! S i = Some b → unit_step a b) ∧
    Forall (λ c, in_grid c ∧ c ∉ blocked) (tail p) ∧
    (in_grid start → Forall in_grid p) ∧
    route blocked start goal p ∧
    (∀ q, route blocked start goal q → (steps p ≤ steps q)%nat).
Proof.
  intros Ho Hf Hreach run Hrun.
  assert (∃ p, run iter_order fuel start goal blocked = Ok p ∧
               search_post blocked start goal p) as (p & Hp & Hpost).
  { destruct Hrun as [-> | ->].
    - destruct (astar_cases fuel start goal blocked _
                  (v10_astar_outcome iter_order fuel start goal blocked Ho))
        as (_ & Hok & _). exact (Hok Hf).
    - destruct (astar_cases fuel start goal blocked _
                  (base_astar_outcome iter_order fuel start goal blocked Ho))
        as (_ & Hok & _). exact (Hok Hf). }
  exists p. split; [done|].
  destruct Hpost as [[_ Hn]|[Hr Hopt]]; [done|].
  pose proof Hr as (Hh & Hl & Hrt).
  split; [done|]. split; [done|]. split; [by apply (route_unit_steps blocked)|].
  pose proof (route_cells _ _ _ _ Hr) as Hc.
  split; [done|]. split; [|split; [done|]].
  - intros Hs. destruct p as [|c p]; [done|]. simpl in Hh. injection Hh as ->.
    constructor; [done|]. simpl in Hc. eapply Forall_impl; [exact Hc|].
    by intros c [? _].
  - intros q Hq. specialize (Hopt q Hq). unfold steps. lia.
Qed.

(** *** Exhausting the frontier *)


Lemma walk_came_nonempty (fuel : nat) (cm : gmap cell cell) (c : cell)
  (path l : list cell) :
  walk_came fuel cm c path = Ok l → path ≠ [] → l ≠ [].
Proof.
  revert c path. induction fuel as [|k IH]; intros c path; simpl.
  - destruct (cm !! c); [done|]. by intros [= ->].
  - destruct (cm !! c) as [p|]; [|by intros [= ->]].
    intros Hw Hne. apply (IH _ _ Hw). by destruct path.
Qed.






(** C10: a non-empty path returned by [astar] begins with the start
    cell. *)
Theorem astar_path_begins_at_start
  (iter_order : nat → gset cell → list cell) (fuel : nat)
  (start goal : cell) (blocked : gset cell) (p : list cell) :
  order_ok iter_order →
  V10.astar iter_order fuel start goal blocked = Ok p ∨
  Base.astar iter_order fuel start goal blocked = Ok p →
  p ≠ [] →
  head p = Some start.
Proof.
  intros Ho Hrun Hne.
  assert (search_post blocked start goal p) as Hpost.
  { destruct Hrun as [Hrun|Hrun].
    - destruct (astar_cases fuel start goal blocked _
                  (v10_astar_outcome iter_order fuel start goal blocked Ho))
        as (_ & _ & Hok). by apply Hok.
    - destruct (astar_cases fuel start goal blocked _
                  (base_astar_outcome iter_order fuel start goal blocked Ho))
        as (_ & _ & Hok). by apply Hok. }
  destruct Hpost as [[-> _]|[(Hh & _) _]]; done.
Qed.

(** C5 (as the code has it): for a blocked goal other than the start,
    [astar] returns the empty path; the v10 (and v2) text does so before
    the frontier exists, with no cell expanded, whatever the iteration
    order and the fuel; the base text has no such guard and returns the
    empty path after expanding cells until the frontier is exhausted. *)
Theorem astar_blocked_goal_empty
  (iter_order : nat → gset cell → list cell) (fuel : nat)
  (start goal : cell) (blocked : gset cell) :
  start ≠ goal →
  goal ∈ blocked →
  V10.astar_trace iter_order fuel start goal blocked = Ok ([], 0%nat) ∧
  V10.astar iter_order fuel start goal blocked = Ok [] ∧
  (order_ok iter_order → (enough_fuel ≤ fuel)%nat →
   Base.astar iter_order fuel start goal blocked = Ok [] ∧
   ∃ j, Base.astar_trace iter_order fuel start goal blocked = Ok ([], j) ∧
        (0 < j)%nat).
Proof.
  intros Hne Hb.
  assert (V10.astar_trace iter_order fuel start goal blocked = Ok ([], 0%nat)) as Hv.
  { unfold V10.astar_trace. rewrite decide_False by done. by rewrite decide_True. }
  split; [done|]. split; [unfold V10.astar; by rewrite Hv|].
  intros Ho Hf.
  pose proof (base_astar_outcome iter_order fuel start goal blocked Ho) as Hout.
  destruct (Base.astar_trace iter_order fuel start goal blocked)
    as [[p j]| |] eqn:Hrun; simpl in Hout; [|done|lia].
  assert (p = []) as ->.
  { destruct Hout as [[-> _]|[Hr _]]; [done|].
    destruct (route_goal_free _ _ _ _ Hr Hne) as [_ Hfree]. done. }
  split; [unfold Base.astar; by rewrite Hrun|].
  exists j. split; [done|].
  unfold Base.astar_trace in Hrun.
  eapply (search_empty_expands blocked start goal iter_order Ho fuel fuel 0 j);
    [apply init_inv | | exact Hrun].
  unfold init_state. simpl. intros He.
  assert (start ∈ (∅ : gset cell)) as Hin by (rewrite <- He; by apply elem_of_singleton).
  by apply not_elem_of_empty in Hin.
Qed.

(** C8: called with the same cell as start and as goal, [astar] returns
    the one-cell path of that cell; [set_path] with that path, on an agent
    standing on the cell, leaves an empty path: the agent is Idle where it
    was, and [update] does nothing. *)
Theorem astar_same_cell_idle
  (iter_order : nat → gset cell → list cell) (fuel : nat)
  (c : cell) (blocked : gset cell) (s : Hero) :
  V10.astar iter_order fuel c c blocked = Ok [c] ∧
  (order_ok iter_order → (0 < fuel)%nat →
   Base.astar iter_order fuel c c blocked = Ok [c]) ∧
  (position s = c →
   path (set_path s [c]) = Some [] ∧
   moving (set_path s [c]) = false ∧
   position (set_path s [c]) = c ∧
   ∀ dt, V10.update (set_path s [c]) dt = Ok (set_path s [c]) ∧
         Base.update (set_path s [c]) dt = Ok (set_path s [c])).
Proof.
  split; [|split].
  - unfold V10.astar, V10.astar_trace. by rewrite decide_True.
  - intros Ho Hf. unfold Base.astar, Base.astar_trace.
    destruct fuel as [|k]; [lia|].
    assert (open_set (init_state c c) ≠ ∅) as He.
    { unfold init_state. simpl. intros He.
      assert (c ∈ (∅ : gset cell)) as Hin
        by (rewrite <- He; by apply elem_of_singleton).
      by apply not_elem_of_empty in Hin. }
    rewrite search_S by done.
    destruct (min_frontier iter_order 0 (λ n, default BIG (f (init_state c c) !! n))
                (open_set (init_state c c)) Ho He) as (cur & Hpick & Hin & _).
    rewrite Hpick. simpl in Hin. apply elem_of_singleton in Hin as ->. simpl.
    rewrite decide_True by done.
    unfold reconstruct. rewrite walk_came_unfold. simpl. by rewrite lookup_empty.
  - intros Hpos. unfold position in Hpos.
    assert (path (set_path s [c]) = Some []) as Hp.
    { unfold set_path. simpl. by rewrite decide_True. }
    split; [done|]. split; [unfold moving; by rewrite Hp|]. split; [done|].
    intros dt. unfold V10.update, Base.update. by rewrite Hp.
Qed.

(** *** Runs on concrete maps *)

Lemma reachable_example : reachable ∅ (0, 0) (2, 1).
Proof.
  exists [(0, 0); (1, 0); (2, 0); (2, 1)].
  split; [done|]. split; [done|]. simpl.
  unfold edge, unit_step, in_grid, GRID_W, GRID_H. simpl.
  repeat split; try lia; apply not_elem_of_empty.
Qed.


Lemma astar_returns_shortest_route_witness :
  order_ok elements_order ∧ (enough_fuel ≤ enough_fuel)%nat ∧
  reachable ∅ (0, 0) (2, 1) ∧
  ∃ p, V10.astar elements_order enough_fuel (0, 0) (2, 1) ∅ = Ok p ∧
       head p = Some (0, 0) ∧ last p = Some (2, 1) ∧
       (∀ (i : nat) (a b : cell), p !! i = Some a → p !! S i = Some b → unit_step a b) ∧
       Forall (λ c, in_grid c ∧ c ∉ (∅ : gset cell)) (tail p) ∧
       (in_grid (0, 0) → Forall in_grid p) ∧
       route ∅ (0, 0) (2, 1) p ∧
       (∀ q, route ∅ (0, 0) (2, 1) q → (steps p ≤ steps q)%nat).
Proof.
  split; [exact elements_order_ok|]. split; [apply le_n|].
  split; [exact reachable_example|].
  apply (astar_returns_shortest_route elements_order enough_fuel (0, 0) (2, 1) ∅
           elements_order_ok (le_n _) reachable_example V10.astar).
  left. reflexivity.
Defined.

(** The run behind the witness: one of the three-step routes. *)
Example astar_run_open_grid :
  V10.astar elements_order enough_fuel (0, 0) (2, 1) ∅ =
    Ok [(0, 0); (1, 0); (2, 0); (2, 1)] ∧
  Base.astar elements_order enough_fuel (0, 0) (2, 1) ∅ =
    Ok [(0, 0); (1, 0); (2, 0); (2, 1)].
Proof. split; vm_compute; reflexivity. Qed.



(** The run behind the witness: the frontier is exhausted after the start
    cell alone. *)
Example astar_run_enclosed :
  Base.astar_trace elements_order enough_fuel (0, 0) (1, 1)
    (list_to_set [(1, 0); (0, 1)]) = Ok ([], 1%nat) ∧
  V10.astar_trace elements_order enough_fuel (0, 0) (1, 1)
    (list_to_set [(1, 0); (0, 1)]) = Ok ([], 1%nat).
Proof. split; vm_compute; reflexivity. Qed.

Lemma astar_path_begins_at_start_witness :
  order_ok elements_order ∧
  (V10.astar elements_order enough_fuel (0, 0) (2, 1) ∅ =
     Ok [(0, 0); (1, 0); (2, 0); (2, 1)] ∨
   Base.astar elements_order enough_fuel (0, 0) (2, 1) ∅ =
     Ok [(0, 0); (1, 0); (2, 0); (2, 1)]) ∧
  [(0, 0); (1, 0); (2, 0); (2, 1)] ≠ ([] : list cell) ∧
  head [(0, 0); (1, 0); (2, 0); (2, 1)] = Some (0, 0).
Proof.
  assert (V10.astar elements_order enough_fuel (0, 0) (2, 1) ∅ =
            Ok [(0, 0); (1, 0); (2, 0); (2, 1)] ∨
          Base.astar elements_order enough_fuel (0, 0) (2, 1) ∅ =
            Ok [(0, 0); (1, 0); (2, 0); (2, 1)]) as Hrun
    by (left; vm_compute; reflexivity).
  assert ([(0, 0); (1, 0); (2, 0); (2, 1)] ≠ ([] : list cell)) as Hne
    by discriminate.
  split; [exact elements_order_ok|]. split; [exact Hrun|]. split; [exact Hne|].
  exact (astar_path_begins_at_start elements_order enough_fuel (0, 0) (2, 1) ∅
           [(0, 0); (1, 0); (2, 0); (2, 1)] elements_order_ok Hrun Hne).
Defined.

Lemma astar_blocked_goal_empty_witness :
  (0, 0) ≠ (1, 0) ∧ (1, 0) ∈ ({[(1, 0)]} : gset cell) ∧
  V10.astar_trace elements_order enough_fuel (0, 0) (1, 0) {[(1, 0)]} = Ok ([], 0%nat).
Proof.
  assert ((0, 0) ≠ (1, 0)) as Hne by discriminate.
  assert ((1, 0) ∈ ({[(1, 0)]} : gset cell)) as Hb by (by apply elem_of_singleton).
  split; [exact Hne|]. split; [exact Hb|].
  exact (proj1 (astar_blocked_goal_empty elements_order enough_fuel (0, 0) (1, 0)
                  {[(1, 0)]} Hne Hb)).
Defined.

(** C5 as stated fails when the blocked goal is the start itself: the
    first guard of the v10 text returns the one-cell path, and so does the
    first pass of the loop in the base text.  The base text also searches
    before it returns the empty path for a blocked goal: on an otherwise
    free grid it expands 1599 cells. *)
Lemma astar_blocked_start_is_goal :
  (0, 0) ∈ ({[(0, 0)]} : gset cell) ∧
  V10.astar elements_order enough_fuel (0, 0) (0, 0) {[(0, 0)]} = Ok [(0, 0)] ∧
  V10.astar elements_order enough_fuel (0, 0) (0, 0) {[(0, 0)]} ≠ Ok [] ∧
  Base.astar elements_order enough_fuel (0, 0) (0, 0) {[(0, 0)]} = Ok [(0, 0)] ∧
  Base.astar_trace elements_order enough_fuel (0, 0) (1, 0) {[(1, 0)]}
    = Ok ([], 1599%nat).
Proof.
  split; [by apply elem_of_singleton|].
  split; [vm_compute; reflexivity|].
  split; [vm_compute; discriminate|].
  split; vm_compute; reflexivity.
Qed.

Lemma astar_same_cell_idle_witness :
  order_ok elements_order ∧ (0 < enough_fuel)%nat ∧ position hero0 = (0, 0) ∧
  Base.astar elements_order enough_fuel (0, 0) (0, 0) ∅ = Ok [(0, 0)] ∧
  path (set_path hero0 [(0, 0)]) = Some [] ∧
  moving (set_path hero0 [(0, 0)]) = false.
Proof.
  assert (0 < enough_fuel)%nat as Hf by (vm_compute; lia).
  assert (position hero0 = (0, 0)) as Hp by reflexivity.
  split; [exact elements_order_ok|]. split; [exact Hf|]. split; [exact Hp|].
  destruct (astar_same_cell_idle elements_order enough_fuel (0, 0) ∅ hero0)
    as (_ & Hbase & Hidle).
  split; [exact (Hbase elements_order_ok Hf)|].
  destruct (Hidle Hp) as (H1 & H2 & _). split; [exact H1 | exact H2].
Defined.

(** * The rest of the game code *)

(** ** Clamping and the mouse handler *)

(** X1: with [lo <= hi], [clamp] returns a value of the interval, returns
    a value of the interval unchanged, and is [max(lo, min(hi, v))], the
    idiom of the base and v10 handlers. *)
Theorem clamp_in_interval (v lo hi : Z) :
  lo ≤ hi →
  lo ≤ clamp v lo hi ≤ hi ∧
  (lo ≤ v ≤ hi → clamp v lo hi = v) ∧
  clamp v lo hi = Z.max lo (Z.min hi v).
Proof.
  intros Hle. unfold clamp.
  destruct (decide (v < lo)); [lia|]. destruct (decide (v > hi)); lia.
Qed.

Lemma clamp_in_interval_witness :
  0 ≤ 39 ∧ 0 ≤ clamp 57 0 39 ≤ 39 ∧ clamp 57 0 39 = Z.max 0 (Z.min 39 57).
Proof.
  assert (0 ≤ 39) as Hle by lia. split; [exact Hle|].
  destruct (clamp_in_interval 57 0 39 Hle) as (H1 & _ & H3).
  split; [exact H1 | exact H3].
Defined.

(** With the bounds the wrong way round the two idioms differ. *)
Example clamp_crossed_bounds : clamp 5 3 1 = 1 ∧ Z.max 3 (Z.min 1 5) = 3.
Proof. split; reflexivity. Qed.

(** The cell the handlers keep after clamping. *)
Lemma clamp_to_grid_spec (c : cell) :
  in_grid (clamp_to_grid c) ∧
  (in_grid c → clamp_to_grid c = c) ∧
  (clamp c.1 0 (GRID_W - 1), clamp c.2 0 (GRID_H - 1)) = clamp_to_grid c.
Proof.
  unfold in_grid, clamp_to_grid, clamp, GRID_W, GRID_H. destruct c as [x y].
  simpl. split; [lia|]. split.
  - intros Hc. f_equal; lia.
  - destruct (decide (x < 0)), (decide (x > 40 - 1)),
      (decide (y < 0)), (decide (y > 40 - 1)); f_equal; lia.
Qed.

(** X2: whatever cell the projection gives, the clamped cell is a cell of
    the grid; a cell of the grid is left as it is; the v2 handler, which
    clamps with [clamp], gets the same cell. *)
Theorem clamp_to_grid_in_grid (c : cell) :
  in_grid (clamp_to_grid c) ∧
  (in_grid c → clamp_to_grid c = c) ∧
  (clamp c.1 0 (GRID_W - 1), clamp c.2 0 (GRID_H - 1)) = clamp_to_grid c.
Proof. exact (clamp_to_grid_spec c). Qed.

(** ** The hero stays on its route *)

Lemma is_route_tail (blocked : gset cell) (a : cell) (l : list cell) :
  is_route blocked (a :: l) → is_route blocked l.
Proof. destruct l as [|b l]; [done|]. by intros [_ H]. Qed.

Lemma set_path_of_route (blocked : gset cell) (s : Hero) (goal : cell)
  (p : list cell) :
  route blocked (position s) goal p →
  path (set_path s p) = Some (tail p) ∧ position s :: tail p = p.
Proof.
  intros (Hh & _ & _). destruct p as [|c p]; [done|].
  simpl in Hh. injection Hh as ->. split; [|done].
  unfold set_path, position. simpl. by rewrite decide_True.
Qed.

Lemma set_path_position (s : Hero) (p : list cell) :
  position (set_path s p) = position s.
Proof. done. Qed.

(** What [go_to] does with an [astar] that finds routes. *)
Lemma go_to_cases (astar : cell → cell → gset cell → result (list cell))
  (blocked : gset cell) (s s' : Hero) (target : cell) :
  (∀ p, astar (position s) target blocked = Ok p →
        search_post blocked (position s) target p) →
  go_to astar blocked s target = Ok s' →
  s' = s ∨
  ((target ∉ blocked) ∧ position s' = position s ∧
   route blocked (position s) target (position s :: path_cells s') ∧
   ∀ q, route blocked (position s) target q →
        (length (path_cells s') < length q)%nat).
Proof.
  intros Hpost Hgo. unfold go_to in Hgo.
  destruct (decide (target ∉ blocked)) as [Hfree|]; [|left; by injection Hgo].
  destruct (astar (position s) target blocked) as [p| |] eqn:Ha; try done.
  simpl in Hgo. destruct p as [|c p]; [left; by injection Hgo|].
  injection Hgo as <-. right.
  destruct (Hpost _ eq_refl) as [[? _]|[Hr Hopt]]; [done|].
  destruct (set_path_of_route blocked s target (c :: p) Hr) as [Hp Heq].
  split; [done|]. split; [done|]. unfold path_cells. rewrite Hp.
  simpl in *. rewrite Heq.
  split; [done|]. intros q Hq. specialize (Hopt q Hq). simpl in Hopt. lia.
Qed.

Lemma v10_astar_post (iter_order : nat → gset cell → list cell) (fuel : nat)
  (start goal : cell) (blocked : gset cell) (p : list cell) :
  order_ok iter_order →
  V10.astar iter_order fuel start goal blocked = Ok p →
  search_post blocked start goal p.
Proof.
  intros Ho Hp.
  destruct (astar_cases fuel start goal blocked _
              (v10_astar_outcome iter_order fuel start goal blocked Ho))
    as (_ & _ & Hok). by apply Hok.
Qed.

Lemma base_astar_post (iter_order : nat → gset cell → list cell) (fuel : nat)
  (start goal : cell) (blocked : gset cell) (p : list cell) :
  order_ok iter_order →
  Base.astar iter_order fuel start goal blocked = Ok p →
  search_post blocked start goal p.
Proof.
  intros Ho Hp.
  destruct (astar_cases fuel start goal blocked _
              (base_astar_outcome iter_order fuel start goal blocked Ho))
    as (_ & _ & Hok). by apply Hok.
Qed.

(** What a click of the base or v10 demo does to the hero. *)
Lemma click_cases
  (iter_order : nat → gset cell → list cell) (fuel : nat)
  (blocked : gset cell) (s s' : Hero) (mx my cam_x cam_y : Z) :
  order_ok iter_order →
  BaseGame.on_click iter_order fuel blocked s mx my cam_x cam_y = Ok s' ∨
  (∃ collidepoint,
     V10Game.on_click collidepoint iter_order fuel blocked s mx my cam_x cam_y
       = Ok s') →
  s' = s ∨
  ∃ target,
    in_grid target ∧ (target ∉ blocked) ∧
    position s' = position s ∧
    route blocked (position s) target (position s :: path_cells s') ∧
    ∀ q, route blocked (position s) target q →
         (length (path_cells s') < length q)%nat.
Proof.
  intros Ho Hclick.
  assert (∃ astar c,
    (∀ t p, astar (position s) t blocked = Ok p →
            search_post blocked (position s) t p) ∧
    (go_to astar blocked s (clamp_to_grid c) = Ok s' ∨ s' = s)) as Hgo.
  { destruct Hclick as [Hb|[collide Hv]].
    - unfold BaseGame.on_click, BaseGame.click_cell in Hb.
      destruct (Base.screen_to_grid mx my cam_x cam_y) as [c| |]; try done.
      exists (Base.astar iter_order fuel), c. split; [|by left].
      intros t p. by apply base_astar_post.
    - unfold V10Game.on_click, V10Game.click_cell in Hv. destruct (collide mx my).
      + destruct (V10.iso_to_grid (mx - cam_x) (my - cam_y)) as [c| |]; try done.
        exists (V10.astar iter_order fuel), c. split; [|by left].
        intros t p. by apply v10_astar_post.
      + exists (V10.astar iter_order fuel), (0, 0). split; [|right; by injection Hv].
        intros t p. by apply v10_astar_post. }
  destruct Hgo as (astar & c & Hpost & [Hgo|Hs]); [|by left].
  destruct (go_to_cases astar blocked s s' (clamp_to_grid c) (Hpost _) Hgo)
    as [Hs|(Hfree & Hpos & Hr & Hopt)]; [by left|].
  right. exists (clamp_to_grid c).
  split; [apply clamp_to_grid_spec|]. done.
Qed.

(** With fuel for the whole grid both texts of [astar] return. *)
Lemma astar_finds (iter_order : nat → gset cell → list cell) (fuel : nat)
  (start goal : cell) (blocked : gset cell) :
  order_ok iter_order → (enough_fuel ≤ fuel)%nat →
  (∃ p, V10.astar iter_order fuel start goal blocked = Ok p ∧
        search_post blocked start goal p) ∧
  (∃ p, Base.astar iter_order fuel start goal blocked = Ok p ∧
        search_post blocked start goal p).
Proof.
  intros Ho Hf. split.
  - destruct (astar_cases fuel start goal blocked _
                (v10_astar_outcome iter_order fuel start goal blocked Ho))
      as (_ & Hok & _). exact (Hok Hf).
  - destruct (astar_cases fuel start goal blocked _
                (base_astar_outcome iter_order fuel start goal blocked Ho))
      as (_ & Hok & _). exact (Hok Hf).
Qed.

(** What [go_to] does with an [astar] that returns. *)
Lemma go_to_result (astar : cell → cell → gset cell → result (list cell))
  (blocked : gset cell) (s : Hero) (target : cell) :
  in_grid target →
  (∃ p, astar (position s) target blocked = Ok p ∧
        search_post blocked (position s) target p) →
  ∃ s', go_to astar blocked s target = Ok s' ∧ click_result blocked s target s'.
Proof.
  intros Hin (p & Ha & Hpost). unfold go_to, click_result.
  destruct (decide (target ∉ blocked)) as [Hfree|Hb].
  - rewrite Ha. simpl. destruct Hpost as [[-> Hn]|[Hr Hopt]].
    + exists s. split; [done|]. split; [done|]. split; [done|].
      intros _ Hreach. done.
    + destruct (set_path_of_route blocked s target p Hr) as [Hp _].
      pose proof (route_nonempty _ _ _ _ Hr) as Hlen.
      destruct p as [|c p]; [simpl in Hlen; lia|].
      exists (set_path s (c :: p)). split; [done|]. split; [done|]. split.
      * intros [Hb|Hn]; [done|]. exfalso. apply Hn. by exists (c :: p).
      * intros _ _. exists (c :: p). done.
  - exists s. split; [done|]. split; [done|]. split; [done|].
    intros Hfree. done.
Qed.

(** X3: a click of the base or v10 demo, with fuel for the whole grid.
    The handler returns.  When the cell it selects is an obstacle or
    cannot be reached from the hero's cell, the hero is left exactly as
    it was; in every other case [set_path] is called with a route of the
    fewest steps from the hero's cell to the selected cell, so the hero
    keeps its cell and its new path is the rest of that route.  A click
    outside the safe rectangle of the v10 demo leaves the hero as it
    was. *)
Theorem click_installs_shortest_route
  (iter_order : nat → gset cell → list cell) (fuel : nat)
  (blocked : gset cell) (s : Hero) (mx my cam_x cam_y : Z) (target : cell) :
  order_ok iter_order →
  (enough_fuel ≤ fuel)%nat →
  (BaseGame.click_cell mx my cam_x cam_y = Ok target →
   ∃ s', BaseGame.on_click iter_order fuel blocked s mx my cam_x cam_y = Ok s' ∧
         click_result blocked s target s') ∧
  (∀ collidepoint : Z → Z → bool,
     (collidepoint mx my = false →
      V10Game.on_click collidepoint iter_order fuel blocked s mx my cam_x cam_y
        = Ok s) ∧
     (collidepoint mx my = true →
      V10Game.click_cell mx my cam_x cam_y = Ok target →
      ∃ s', V10Game.on_click collidepoint iter_order fuel blocked s
              mx my cam_x cam_y = Ok s' ∧
            click_result blocked s target s')).
Proof.
  intros Ho Hf.
  destruct (astar_finds iter_order fuel (position s) target blocked Ho Hf)
    as [Hv10 Hbase].
  split; [|intros collidepoint; split].
  - intros Hcell. unfold BaseGame.on_click. rewrite Hcell. simpl.
    apply go_to_result; [|done].
    unfold BaseGame.click_cell in Hcell.
    destruct (Base.screen_to_grid _ _ _ _) as [c| |]; try done.
    injection Hcell as <-. apply clamp_to_grid_spec.
  - intros Hout. unfold V10Game.on_click. by rewrite Hout.
  - intros Hinside Hcell. unfold V10Game.on_click. rewrite Hinside, Hcell. simpl.
    apply go_to_result; [|done].
    unfold V10Game.click_cell in Hcell.
    destruct (V10.iso_to_grid _ _) as [c| |]; try done.
    injection Hcell as <-. apply clamp_to_grid_spec.
Qed.

Lemma search_post_path (blocked : gset cell) (s : Hero) (target : cell)
  (p : list cell) :
  search_post blocked (position s) target p →
  ∃ l, path (set_path s p) = Some l ∧
       ((l = [] ∧ ¬ reachable blocked (position s) target) ∨
        (route blocked (position s) target (position s :: l) ∧
         ∀ q, route blocked (position s) target q → (length l < length q)%nat)).
Proof.
  intros [[-> Hn]|[Hr Hopt]].
  - exists []. split; [done|]. by left.
  - destruct (set_path_of_route blocked s target p Hr) as [Hp Heq].
    exists (tail p). split; [done|]. right. rewrite Heq. split; [done|].
    intros q Hq. specialize (Hopt q Hq). rewrite <- Heq in Hopt.
    simpl in Hopt. lia.
Qed.

(** What a click of the v2 demo does to the hero. *)
Lemma v2_click_cases
  (iter_order : nat → gset cell → list cell) (fuel : nat)
  (blocked : gset cell) (s s' : Hero) (mx my : Z) (cam_x cam_y : V2Game.num) :
  order_ok iter_order →
  V2Game.on_click iter_order fuel blocked s mx my cam_x cam_y = Ok s' →
  position s' = position s ∧
  ∃ target l,
    in_grid target ∧ path s' = Some l ∧
    ((l = [] ∧ ¬ reachable blocked (position s) target) ∨
     (route blocked (position s) target (position s :: l) ∧
      ∀ q, route blocked (position s) target q → (length l < length q)%nat)).
Proof.
  intros Ho Hclick. unfold V2Game.on_click, V2Game.click_cell in Hclick.
  destruct (V2Game.int_sub mx cam_x) as [ix| |]; try done.
  destruct (V2Game.int_sub my cam_y) as [iy| |]; try done. simpl in Hclick.
  destruct (V2Game.sub_int ix _) as [ix'| |]; try done. simpl in Hclick.
  destruct (V2Game.iso_to_grid ix' iy) as [c| |]; try done. simpl in Hclick.
  destruct (V10.astar _ _ _ _ _) as [p| |] eqn:Hp; try done.
  simpl in Hclick. injection Hclick as <-. split; [done|].
  pose proof (clamp_to_grid_spec c) as (Hin & _ & Heq).
  rewrite Heq in Hp. exists (clamp_to_grid c).
  destruct (search_post_path blocked s (clamp_to_grid c) p) as (l & Hl & Hcase).
  { by eapply v10_astar_post. }
  exists l. done.
Qed.

(** X4: a click of the v2 demo, with fuel for the whole grid.  The
    handler returns and always calls [set_path], with what [astar]
    returned for the cell [target] that the click selects (the converted
    and clamped cell): the hero keeps its cell; when the target cannot be
    reached the new path is the empty list (a walking hero stops);
    otherwise it is the rest of a route of the fewest steps from the
    hero's cell to the target. *)
Theorem v2_click_replaces_path
  (iter_order : nat → gset cell → list cell) (fuel : nat)
  (blocked : gset cell) (s : Hero) (mx my : Z) (cam_x cam_y : V2Game.num)
  (target : cell) :
  order_ok iter_order →
  (enough_fuel ≤ fuel)%nat →
  V2Game.click_cell mx my cam_x cam_y = Ok target →
  in_grid target ∧
  ∃ p,
    V10.astar iter_order fuel (position s) target blocked = Ok p ∧
    V2Game.on_click iter_order fuel blocked s mx my cam_x cam_y
      = Ok (set_path s p) ∧
    position (set_path s p) = position s ∧
    (¬ reachable blocked (position s) target →
     p = [] ∧ path (set_path s p) = Some []) ∧
    (reachable blocked (position s) target →
     route blocked (position s) target p ∧
     (∀ q, route blocked (position s) target q → (length p ≤ length q)%nat) ∧
     path (set_path s p) = Some (tail p)).
Proof.
  intros Ho Hf Hcell. split.
  - unfold V2Game.click_cell in Hcell.
    destruct (V2Game.int_sub mx cam_x) as [ix| |]; try done.
    destruct (V2Game.int_sub my cam_y) as [iy| |]; try done. simpl in Hcell.
    destruct (V2Game.sub_int ix _) as [ix'| |]; try done. simpl in Hcell.
    destruct (V2Game.iso_to_grid ix' iy) as [c| |]; try done. simpl in Hcell.
    injection Hcell as <-.
    pose proof (clamp_to_grid_spec c) as (Hin & _ & Heq). by rewrite Heq.
  - destruct (astar_finds iter_order fuel (position s) target blocked Ho Hf)
      as [(p & Hp & Hpost) _].
    exists p. split; [done|]. split.
    { unfold V2Game.on_click. rewrite Hcell. simpl. by rewrite Hp. }
    split; [done|]. split.
    + intros Hn. destruct Hpost as [[-> _]|[Hr _]]; [done|].
      exfalso. apply Hn. by exists p.
    + intros Hreach. destruct Hpost as [[_ Hn]|[Hr Hopt]]; [done|].
      destruct (set_path_of_route blocked s target p Hr) as [Hpath _]. done.
Qed.

Lemma v10_update_keeps (blocked : gset cell) (s s' : Hero) (dt : F.float) :
  V10.update s dt = Ok s' →
  on_route blocked s →
  on_route blocked s' ∧ (on_free_cell blocked s → on_free_cell blocked s').
Proof.
  intros Hu Hr. destruct (v10_update_cases s dt) as (s1 & Hu1 & Hc).
  rewrite Hu1 in Hu. injection Hu as ->. clear Hu1.
  unfold on_route, on_free_cell, path_cells in *.
  destruct (path s) as [[|c rest]|] eqn:Hp;
    [subst s'; by rewrite Hp | | subst s'; by rewrite Hp].
  destruct (F.gt_zero _).
  - destruct Hc as (-> & -> & _). done.
  - destruct Hc as (-> & -> & _). simpl in *.
    destruct Hr as [(_ & Hg & Hb) Hr]. done.
Qed.

Lemma base_update_keeps (blocked : gset cell) (s s' : Hero) (dt : F.float) :
  Base.update s dt = Ok s' →
  on_route blocked s →
  on_route blocked s' ∧ (on_free_cell blocked s → on_free_cell blocked s').
Proof.
  intros Hu Hr. destruct (base_update_cases s dt) as (s1 & Hu1 & Hc).
  rewrite Hu1 in Hu. injection Hu as ->. clear Hu1.
  unfold on_route, on_free_cell, path_cells in *.
  destruct (path s) as [[|c rest]|] eqn:Hp;
    [subst s'; by rewrite Hp | | subst s'; by rewrite Hp].
  destruct (F.ge _ _).
  - destruct Hc as (-> & _ & ->). simpl in *.
    destruct Hr as [(_ & Hg & Hb) Hr]. by destruct rest.
  - destruct Hc as (-> & -> & _). done.
Qed.

Lemma click_keeps (blocked : gset cell) (s s' : Hero) :
  position s' = position s →
  s' = s ∨ is_route blocked (position s :: path_cells s') →
  on_route blocked s →
  on_route blocked s' ∧ (on_free_cell blocked s → on_free_cell blocked s').
Proof.
  unfold on_route, on_free_cell. intros Hpos [->|Hr] Hs; [done|].
  by rewrite Hpos.
Qed.

Lemma base_step_keeps (blocked : gset cell) (s s' : Hero) :
  BaseGame.step blocked s s' →
  on_route blocked s →
  on_route blocked s' ∧ (on_free_cell blocked s → on_free_cell blocked s').
Proof.
  intros [iter_order fuel s0 s0' mx my cx cy Ho Hclick|s0 s0' dt Hu].
  - destruct (click_cases iter_order fuel blocked s0 s0'
                mx my cx cy Ho (or_introl Hclick))
      as [->|(t & _ & _ & Hpos & (_ & _ & Hr) & _)]; [done|].
    apply click_keeps; [done|]. by right.
  - by apply (base_update_keeps blocked s0 s0' dt).
Qed.

Lemma v10_step_keeps (blocked : gset cell) (s s' : Hero) :
  V10Game.step blocked s s' →
  on_route blocked s →
  on_route blocked s' ∧ (on_free_cell blocked s → on_free_cell blocked s').
Proof.
  intros [collide iter_order fuel s0 s0' mx my cx cy Ho Hclick|s0 s0' dt Hu].
  - destruct (click_cases iter_order fuel blocked s0 s0'
                mx my cx cy Ho (or_intror (ex_intro _ collide Hclick)))
      as [->|(t & _ & _ & Hpos & (_ & _ & Hr) & _)]; [done|].
    apply click_keeps; [done|]. by right.
  - by apply (v10_update_keeps blocked s0 s0' dt).
Qed.

Lemma v2_step_keeps (blocked : gset cell) (s s' : Hero) :
  V2Game.step blocked s s' →
  on_route blocked s →
  on_route blocked s' ∧ (on_free_cell blocked s → on_free_cell blocked s').
Proof.
  intros [iter_order fuel s0 s0' mx my cx cy Ho Hclick|s0 s0' dt Hu].
  - destruct (v2_click_cases iter_order fuel blocked s0 s0' mx my cx cy Ho Hclick)
      as (Hpos & t & l & _ & Hl & Hcase).
    apply click_keeps; [done|]. right. unfold path_cells. rewrite Hl. simpl.
    destruct Hcase as [[-> _]|[(_ & _ & Hr) _]]; done.
  - by apply (v10_update_keeps blocked s0 s0' dt).
Qed.

Lemma steps_keep (step : Hero → Hero → Prop) (blocked : gset cell) :
  (∀ s s', step s s' → on_route blocked s →
           on_route blocked s' ∧ (on_free_cell blocked s → on_free_cell blocked s')) →
  ∀ s s', rtc step s s' → on_route blocked s → on_free_cell blocked s →
          on_route blocked s' ∧ on_free_cell blocked s'.
Proof.
  intros Hstep s s' Hrtc. induction Hrtc as [|s1 s2 s3 H12 _ IH]; [done|].
  intros Hr Hf. destruct (Hstep s1 s2 H12 Hr) as [Hr2 Hf2]. apply IH; auto.
Qed.

(** X5: in the three demos, a hero that stands on a free cell of the grid,
    with a path that continues from its cell by moves, is still so after
    any sequence of clicks and [update] calls: it never enters an obstacle
    and never leaves the grid. *)
Theorem hero_stays_on_free_cells (blocked : gset cell) (s s' : Hero) :
  on_route blocked s →
  on_free_cell blocked s →
  rtc (BaseGame.step blocked) s s' ∨ rtc (V10Game.step blocked) s s' ∨
  rtc (V2Game.step blocked) s s' →
  on_route blocked s' ∧ on_free_cell blocked s'.
Proof.
  intros Hr Hf [H|[H|H]].
  - eapply (steps_keep (BaseGame.step blocked)); eauto using base_step_keeps.
  - eapply (steps_keep (V10Game.step blocked)); eauto using v10_step_keeps.
  - eapply (steps_keep (V2Game.step blocked)); eauto using v2_step_keeps.
Qed.

(** X6: in the base demo the hero of [Hero()], on the map of [IsoMap()]
    whatever its generator draws, is on a free cell of the grid after any
    sequence of clicks and [update] calls; the same holds in the v2 demo. *)
Theorem hero_never_on_obstacle :
  (∀ (rng : Type) (randrange : rng → Z → Z * rng) (seeded : rng) (s' : Hero),
     rtc (BaseGame.step (Base.IsoMap_init randrange seeded)) BaseGame.hero_init s' →
     on_free_cell (Base.IsoMap_init randrange seeded) s') ∧
  (∀ (rng : Type) (randint : rng → Z → Z → Z * rng) (seeded : rng) (s' : Hero),
     rtc (V2Game.step (V10.IsoMap_init randint seeded)) V2Game.hero_init s' →
     on_free_cell (V10.IsoMap_init randint seeded) s').
Proof.
  split; intros rng rand seeded s' Hrtc.
  - eapply (steps_keep (BaseGame.step _)); eauto using base_step_keeps.
    + done.
    + split; [unfold in_grid, GRID_W, GRID_H; simpl; lia|].
      apply fill_base_keeps; [|apply not_elem_of_empty].
      unfold Base.always_walkable. set_solver.
  - eapply (steps_keep (V2Game.step _)); eauto using v2_step_keeps.
    + done.
    + split; [unfold in_grid, GRID_W, GRID_H; simpl; lia|].
      apply fill_v10_keeps; [|apply not_elem_of_empty].
      unfold V10.always_walkable. set_solver.
Qed.

(** ** Sequences of [update] calls *)

Lemma advances_trans (k1 k2 : nat) (s s1 s2 : Hero) :
  advances k1 s s1 → advances k2 s1 s2 → advances (k1 + k2) s s2.
Proof.
  intros (d1 & Hl1 & Hp1 & Hq1) (d2 & Hl2 & Hp2 & Hq2).
  exists (d1 ++ d2). split; [rewrite length_app; lia|].
  split; [by rewrite Hp1, Hp2, app_assoc|].
  rewrite Hq2, Hq1. destruct d2 as [|x d2 _] using rev_ind.
  - by rewrite app_nil_r.
  - by rewrite app_assoc, !last_snoc.
Qed.

Lemma v10_update_advances (s : Hero) (dt : F.float) :
  ∃ s' k, V10.update s dt = Ok s' ∧ (k ≤ 1)%nat ∧ advances k s s'.
Proof.
  destruct (v10_update_cases s dt) as (s' & Hu & Hc). exists s'.
  destruct (path s) as [[|c rest]|] eqn:Hp.
  - subst s'. exists 0%nat. split; [done|]. split; [lia|]. by apply advances_0.
  - destruct (F.gt_zero _).
    + destruct Hc as (Hq & Hp' & _). exists 0%nat. split; [done|]. split; [lia|].
      apply advances_0; [|done]. unfold path_cells. by rewrite Hp', Hp.
    + destruct Hc as (Hq & Hp' & _). exists 1%nat. split; [done|]. split; [lia|].
      apply (advances_1 _ _ c); [|done]. unfold path_cells. by rewrite Hp, Hp'.
  - subst s'. exists 0%nat. split; [done|]. split; [lia|]. by apply advances_0.
Qed.

Lemma base_update_advances (s : Hero) (dt : F.float) :
  ∃ s' k, Base.update s dt = Ok s' ∧ (k ≤ 1)%nat ∧ advances k s s'.
Proof.
  destruct (base_update_cases s dt) as (s' & Hu & Hc). exists s'.
  destruct (path s) as [[|c rest]|] eqn:Hp.
  - subst s'. exists 0%nat. split; [done|]. split; [lia|]. by apply advances_0.
  - destruct (F.ge _ _).
    + destruct Hc as (Hq & _ & Hp'). exists 1%nat. split; [done|]. split; [lia|].
      apply (advances_1 _ _ c); [|done]. unfold path_cells. rewrite Hp, Hp'.
      by destruct rest.
    + destruct Hc as (Hq & Hp' & _). exists 0%nat. split; [done|]. split; [lia|].
      apply advances_0; [|done]. unfold path_cells. by rewrite Hp', Hp.
  - subst s'. exists 0%nat. split; [done|]. split; [lia|]. by apply advances_0.
Qed.

Lemma run_updates_advances (update : Hero → F.float → result Hero) :
  (∀ s dt, ∃ s' k, update s dt = Ok s' ∧ (k ≤ 1)%nat ∧ advances k s s') →
  ∀ dts s, ∃ s' k, run_updates update dts s = Ok s' ∧
                   (k ≤ length dts)%nat ∧ advances k s s'.
Proof.
  intros Hone dts. induction dts as [|dt dts IH]; intros s.
  - exists s, 0%nat. split; [done|]. split; [done|]. by apply advances_0.
  - destruct (Hone s dt) as (s1 & k1 & Hu & Hk1 & Ha1).
    destruct (IH s1) as (s' & k & Hrun & Hk & Ha).
    exists s', (k1 + k)%nat. unfold run_updates in *. simpl. rewrite Hu. simpl.
    split; [done|]. split; [simpl; lia|]. by eapply advances_trans.
Qed.

(** X7: any sequence of [update] calls, with any time steps, always
    returns, and moves the hero along its path without skipping a cell:
    it consumes the first [k] cells of the path, for some [k] no larger
    than the number of calls, and leaves the hero on the last of them. *)
Theorem updates_follow_path (dts : list F.float) (s : Hero) :
  (∃ s' k, run_updates V10.update dts s = Ok s' ∧
           (k ≤ length dts)%nat ∧ advances k s s') ∧
  (∃ s' k, run_updates Base.update dts s = Ok s' ∧
           (k ≤ length dts)%nat ∧ advances k s s').
Proof.
  split.
  - apply run_updates_advances, v10_update_advances.
  - apply run_updates_advances, base_update_advances.
Qed.

(** X8: on a hero whose path has at least as many cells as there are
    calls, a sequence of [n] [update] calls that each find the timer run
    out takes exactly the first [n] cells: the hero stands on the [n]-th
    and the rest of the path is left; after as many calls as the path has
    cells the hero is Idle on the last one. *)
Theorem expired_updates_walk_path (dts : list F.float) (s : Hero) :
  (length dts ≤ length (path_cells s))%nat →
  (v10_all_expired (step_timer s) dts →
   ∃ s', run_updates V10.update dts s = Ok s' ∧
         path_cells s' = drop (length dts) (path_cells s) ∧
         position s' = default (position s) (last (take (length dts) (path_cells s))) ∧
         (length dts = length (path_cells s) → moving s' = false)) ∧
  (base_all_expired (step_timer s) dts →
   ∃ s', run_updates Base.update dts s = Ok s' ∧
         path_cells s' = drop (length dts) (path_cells s) ∧
         position s' = default (position s) (last (take (length dts) (path_cells s))) ∧
         (length dts = length (path_cells s) → moving s' = false)).
Proof.
  revert s. induction dts as [|dt dts IH]; intros s Hlen.
  - assert (length (@nil F.float) = length (path_cells s) → moving s = false)
      as Hidle.
    { unfold path_cells, moving. by destruct (path s) as [[|c l]|]. }
    split; intros _; exists s; by rewrite drop_0.
  - destruct (path_cells s) as [|c rest] eqn:Hpc; [simpl in Hlen; lia|].
    assert (path s = Some (c :: rest)) as Hp.
    { unfold path_cells in Hpc. by destruct (path s) as [l|]; simplify_eq/=. }
    simpl in Hlen. unfold run_updates in *. split.
    + intros [Hexp Hrest].
      destruct (v10_update_cases s dt) as (s1 & Hu & Hc).
      rewrite Hp, Hexp in Hc. destruct Hc as (Hq & Hp1 & Ht).
      destruct (IH s1) as [IHv _].
      { unfold path_cells. rewrite Hp1. simpl. lia. }
      rewrite Ht in IHv. destruct (IHv Hrest) as (s' & Hrun & Hd & Hpos & Hm).
      exists s'. simpl. rewrite Hu. simpl. split; [done|].
      unfold path_cells in Hd, Hpos, Hm. rewrite Hp1 in Hd, Hpos, Hm. simpl in *.
      split; [done|]. split.
      * rewrite Hpos, Hq.
        destruct (take (length dts) rest) as [|x l] eqn:Ht';
          [done | rewrite last_cons_cons].
        by destruct (proj2 (last_is_Some (x :: l))) as [y ->].
      * intros Hn. apply Hm. lia.
    + intros [Hexp Hrest].
      destruct (base_update_cases s dt) as (s1 & Hu & Hc).
      rewrite Hp, Hexp in Hc. destruct Hc as (Hq & Ht & Hp1).
      assert (path_cells s1 = rest) as Hpc1.
      { unfold path_cells. rewrite Hp1. by destruct rest. }
      destruct (IH s1) as [_ IHb].
      { rewrite Hpc1. lia. }
      rewrite Ht in IHb. destruct (IHb Hrest) as (s' & Hrun & Hd & Hpos & Hm).
      exists s'. simpl. rewrite Hu. simpl. split; [done|].
      rewrite Hpc1 in Hd, Hpos, Hm. simpl.
      split; [done|]. split.
      * rewrite Hpos, Hq.
        destruct (take (length dts) rest) as [|x l] eqn:Ht';
          [done | rewrite last_cons_cons].
        by destruct (proj2 (last_is_Some (x :: l))) as [y ->].
      * intros Hn. apply Hm. lia.
Qed.

Lemma expired_updates_walk_path_witness :
  (length [f_1_0; f_1_0; f_1_0] ≤ length (path_cells hero3))%nat ∧
  v10_all_expired (step_timer hero3) [f_1_0; f_1_0; f_1_0] ∧
  ∃ s', run_updates V10.update [f_1_0; f_1_0; f_1_0] hero3 = Ok s' ∧
        position s' = (3, 0) ∧ moving s' = false.
Proof.
  assert (length [f_1_0; f_1_0; f_1_0] ≤ length (path_cells hero3))%nat as Hlen
    by (simpl; lia).
  assert (v10_all_expired (step_timer hero3) [f_1_0; f_1_0; f_1_0]) as Hexp
    by (repeat split; vm_compute; reflexivity).
  split; [exact Hlen|]. split; [exact Hexp|].
  destruct (proj1 (expired_updates_walk_path [f_1_0; f_1_0; f_1_0] hero3 Hlen) Hexp)
    as (s' & Hrun & _ & Hpos & Hm).
  exists s'. split; [exact Hrun|]. split; [exact Hpos | exact (Hm eq_refl)].
Defined.

(** ** Which cell a click selects *)

(** X9: in the three demos the cell passed to [astar] as the goal is a
    cell of the grid, wherever the mouse and the camera are, whenever the
    conversion returns. *)
Theorem click_cell_in_grid (mx my cam_x cam_y : Z) (cam_fx cam_fy : V2Game.num)
  (target : cell) :
  BaseGame.click_cell mx my cam_x cam_y = Ok target ∨
  V10Game.click_cell mx my cam_x cam_y = Ok target ∨
  V2Game.click_cell mx my cam_fx cam_fy = Ok target →
  in_grid target.
Proof.
  intros [H|[H|H]].
  - unfold BaseGame.click_cell in H.
    destruct (Base.screen_to_grid _ _ _ _) as [c| |]; try done.
    injection H as <-. apply clamp_to_grid_spec.
  - unfold V10Game.click_cell in H.
    destruct (V10.iso_to_grid _ _) as [c| |]; try done.
    injection H as <-. apply clamp_to_grid_spec.
  - unfold V2Game.click_cell in H.
    destruct (V2Game.int_sub mx cam_fx) as [ix| |]; try done.
    destruct (V2Game.int_sub my cam_fy) as [iy| |]; try done. simpl in H.
    destruct (V2Game.sub_int ix _) as [ix'| |]; try done. simpl in H.
    destruct (V2Game.iso_to_grid ix' iy) as [c| |]; try done. simpl in H.
    injection H as <-.
    pose proof (clamp_to_grid_spec c) as (Hin & _ & Heq). by rewrite Heq.
Qed.

Lemma click_cell_in_grid_witness :
  BaseGame.click_cell 672 528 640 160 = Ok (12, 11) ∧ in_grid (12, 11).
Proof.
  assert (BaseGame.click_cell 672 528 640 160 = Ok (12, 11)) as H
    by (vm_compute; reflexivity).
  split; [exact H|].
  exact (click_cell_in_grid 672 528 640 160 (V2Game.IntV 0) (V2Game.IntV 0)
           (12, 11) (or_introl H)).
Defined.

Lemma pick_check_ok (pick : cell → result cell) (expect : cell → cell) :
  forallb (pick_check pick expect) grid_cells = true →
  ∀ c, in_grid c → pick c = Ok (expect c).
Proof.
  intros Hall c Hc. rewrite forallb_forall in Hall.
  specialize (Hall c (proj1 (list_elem_of_In _ _) (in_grid_cells c Hc))).
  unfold pick_check in Hall. destruct (pick c) as [c'| |]; try discriminate.
  apply bool_decide_eq_true in Hall. by subst.
Qed.

Lemma v10_center_picks :
  forallb (pick_check
             (λ c, V10Game.click_cell (V10Game.cell_center c.1 c.2 0 0).1
                                      (V10Game.cell_center c.1 c.2 0 0).2 0 0)
             (λ c, (Z.min (GRID_W - 1) (c.1 + 1), c.2)))
          grid_cells = true.
Proof. vm_compute. reflexivity. Qed.

Lemma v2_center_picks :
  forallb (pick_check
             (λ c, V2Game.click_cell (V2Game.marker_center c.1 c.2 0 0).1
                                     (V2Game.marker_center c.1 c.2 0 0).2
                                     (V2Game.IntV 0) (V2Game.IntV 0))
             (λ c, (Z.min (GRID_W - 1) (c.1 + c.1 `mod` 2),
                    Z.min (GRID_H - 1) (c.2 + c.2 `mod` 2))))
          grid_cells = true.
Proof. vm_compute. reflexivity. Qed.

Lemma v10_click_cell_shift (mx my cam_x cam_y : Z) :
  V10Game.click_cell mx my cam_x cam_y = V10Game.click_cell (mx - cam_x) (my - cam_y) 0 0.
Proof. unfold V10Game.click_cell. by rewrite !Z.sub_0_r. Qed.

Lemma v2_click_cell_shift (mx my cam_x cam_y : Z) :
  V2Game.click_cell mx my (V2Game.IntV cam_x) (V2Game.IntV cam_y) =
  V2Game.click_cell (mx - cam_x) (my - cam_y) (V2Game.IntV 0) (V2Game.IntV 0).
Proof. unfold V2Game.click_cell. simpl. by rewrite !Z.sub_0_r. Qed.

(** X10: a click on the centre of the diamond drawn for a grid cell
    [(gx, gy)] (the point [cell_center] of the v10 [draw]; the point where
    the v2 loop draws the portal, enemy and path markers), with an integer
    camera, does not always select that cell: the v10 handler selects
    [(gx + 1, gy)] (kept in the grid), and the v2 handler, whose halves
    are rounded to the even integer, selects the cell with each odd
    coordinate raised by one. *)
Theorem click_on_marker_selects (c : cell) (cam_x cam_y : Z) :
  in_grid c →
  V10Game.click_cell (V10Game.cell_center c.1 c.2 cam_x cam_y).1
                     (V10Game.cell_center c.1 c.2 cam_x cam_y).2 cam_x cam_y
    = Ok (Z.min (GRID_W - 1) (c.1 + 1), c.2) ∧
  V2Game.click_cell (V2Game.marker_center c.1 c.2 cam_x cam_y).1
                    (V2Game.marker_center c.1 c.2 cam_x cam_y).2
                    (V2Game.IntV cam_x) (V2Game.IntV cam_y)
    = Ok (Z.min (GRID_W - 1) (c.1 + c.1 `mod` 2),
          Z.min (GRID_H - 1) (c.2 + c.2 `mod` 2)).
Proof.
  intros Hc.
  pose proof (pick_check_ok _ _ v10_center_picks c Hc) as Hv.
  pose proof (pick_check_ok _ _ v2_center_picks c Hc) as Hw.
  simpl in Hv, Hw. split.
  - rewrite v10_click_cell_shift, <- Hv. f_equal;
      unfold V10Game.cell_center, V10.grid_to_iso; simpl; lia.
  - rewrite v2_click_cell_shift, <- Hw. f_equal;
      unfold V2Game.marker_center, V2.grid_to_iso; simpl; lia.
Qed.

Lemma click_on_marker_selects_witness :
  in_grid (11, 7) ∧
  V10Game.click_cell (V10Game.cell_center 11 7 100 (-20)).1
                     (V10Game.cell_center 11 7 100 (-20)).2 100 (-20)
    = Ok (12, 7).
Proof.
  assert (in_grid (11, 7)) as Hc by (unfold in_grid, GRID_W, GRID_H; simpl; lia).
  split; [exact Hc|].
  exact (proj1 (click_on_marker_selects (11, 7) 100 (-20) Hc)).
Defined.

(** ** The map and the portal *)

Lemma size_add_one (x : cell) (b : gset cell) : (size ({[x]} ∪ b) ≤ S (size b))%nat.
Proof.
  rewrite size_union_alt, size_singleton.
  assert (size (b ∖ {[x]}) ≤ size b)%nat
    by (apply subseteq_size; intros y [Hy _]%elem_of_difference; exact Hy).
  lia.
Qed.

Lemma fill_v10_bounds {rng : Type} (randint : rng → Z → Z → Z * rng) :
  ∀ n rnd blocked,
    (size (V10.fill randint n rnd blocked) ≤ size blocked + n)%nat ∧
    (randint_ok randint →
     ∀ c, c ∈ V10.fill randint n rnd blocked → c ∈ blocked ∨ in_grid c).
Proof.
  induction n as [|n IH]; intros rnd blocked; simpl; [split; [lia | auto]|].
  pose proof (λ Hok : randint_ok randint, Hok rnd 0 (GRID_W - 1)) as Hx.
  destruct (randint rnd 0 (GRID_W - 1)) as [x rnd1].
  pose proof (λ Hok : randint_ok randint, Hok rnd1 0 (GRID_H - 1)) as Hy.
  destruct (randint rnd1 0 (GRID_H - 1)) as [y rnd2].
  destruct (decide _).
  - destruct (IH rnd2 blocked) as [IH1 IH2]. split; [lia | done].
  - destruct (IH rnd2 ({[(x, y)]} ∪ blocked)) as [IH1 IH2]. split.
    + pose proof (size_add_one (x, y) blocked). lia.
    + intros Hok c Hc. destruct (IH2 Hok c Hc) as [Hin|Hg]; [|by right].
      apply elem_of_union in Hin as [->%elem_of_singleton|Hin]; [|by left].
      right. specialize (Hx Hok). specialize (Hy Hok).
      unfold in_grid, GRID_W, GRID_H in *. simpl in *. lia.
Qed.

Lemma fill_base_bounds {rng : Type} (randrange : rng → Z → Z * rng) :
  ∀ n rnd blocked,
    (size (Base.fill randrange n rnd blocked) ≤ size blocked + n)%nat ∧
    (randrange_ok randrange →
     ∀ c, c ∈ Base.fill randrange n rnd blocked → c ∈ blocked ∨ in_grid c).
Proof.
  induction n as [|n IH]; intros rnd blocked; simpl; [split; [lia | auto]|].
  pose proof (λ Hok : randrange_ok randrange, Hok rnd GRID_W) as Hx.
  destruct (randrange rnd GRID_W) as [x rnd1].
  pose proof (λ Hok : randrange_ok randrange, Hok rnd1 GRID_H) as Hy.
  destruct (randrange rnd1 GRID_H) as [y rnd2].
  destruct (decide _).
  - destruct (IH rnd2 blocked) as [IH1 IH2]. split; [lia | done].
  - destruct (IH rnd2 ({[(x, y)]} ∪ blocked)) as [IH1 IH2]. split.
    + pose proof (size_add_one (x, y) blocked). lia.
    + intros Hok c Hc. destruct (IH2 Hok c Hc) as [Hin|Hg]; [|by right].
      apply elem_of_union in Hin as [->%elem_of_singleton|Hin]; [|by left].
      right. specialize (Hx Hok). specialize (Hy Hok).
      unfold in_grid, GRID_W, GRID_H in *. simpl in *. lia.
Qed.

(** X11: [IsoMap.__init__] blocks at most 120 cells, whatever the
    generator draws. *)
Theorem isomap_at_most_120_obstacles :
  (∀ (rng : Type) (randint : rng → Z → Z → Z * rng) (seeded : rng),
     (size (V10.IsoMap_init randint seeded) ≤ 120)%nat) ∧
  (∀ (rng : Type) (randrange : rng → Z → Z * rng) (seeded : rng),
     (size (Base.IsoMap_init randrange seeded) ≤ 120)%nat).
Proof.
  assert (size (∅ : gset cell) = 0%nat) as He by apply size_empty.
  split; intros rng rand seeded.
  - unfold V10.IsoMap_init. generalize 120%nat. intros n.
    destruct (fill_v10_bounds rand n seeded ∅) as [H _]. lia.
  - unfold Base.IsoMap_init. generalize 120%nat. intros n.
    destruct (fill_base_bounds rand n seeded ∅) as [H _]. lia.
Qed.

(** X12: with a generator that keeps to the bounds it is given, every
    cell blocked by [IsoMap.__init__] is a cell of the grid. *)
Theorem isomap_obstacles_in_grid (c : cell) :
  (∀ (rng : Type) (randint : rng → Z → Z → Z * rng) (seeded : rng),
     randint_ok randint → c ∈ V10.IsoMap_init randint seeded → in_grid c) ∧
  (∀ (rng : Type) (randrange : rng → Z → Z * rng) (seeded : rng),
     randrange_ok randrange → c ∈ Base.IsoMap_init randrange seeded → in_grid c).
Proof.
  split; intros rng rand seeded Hok.
  - unfold V10.IsoMap_init. generalize 120%nat. intros n Hc.
    destruct (fill_v10_bounds rand n seeded ∅) as [_ H].
    destruct (H Hok c Hc) as [Hin|Hg]; [|exact Hg].
    by apply not_elem_of_empty in Hin.
  - unfold Base.IsoMap_init. generalize 120%nat. intros n Hc.
    destruct (fill_base_bounds rand n seeded ∅) as [_ H].
    destruct (H Hok c Hc) as [Hin|Hg]; [|exact Hg].
    by apply not_elem_of_empty in Hin.
Qed.

Lemma isomap_obstacles_in_grid_witness :
  randint_ok low_randint ∧
  (0, 0) ∈ V10.IsoMap_init low_randint tt ∧ in_grid (0, 0).
Proof.
  assert (randint_ok low_randint) as Hok by (intros r lo hi Hle; simpl; lia).
  assert ((0, 0) ∈ V10.IsoMap_init low_randint tt) as Hin
    by (vm_compute; reflexivity).
  split; [exact Hok|]. split; [exact Hin|].
  exact (proj1 (isomap_obstacles_in_grid (0, 0)) unit low_randint tt Hok Hin).
Defined.

(** X13: the portal set-up of the v10 [main()] removes from the obstacle
    set exactly the cells at most one step away from the portal in each
    coordinate, the portal among them, and leaves every other cell as it
    was. *)
Theorem clear_portal_spec (blocked : gset cell) (c : cell) :
  c ∈ V10Game.clear_portal blocked ↔
  c ∈ blocked ∧
  ¬ (Z.abs (c.1 - V10Game.portal.1) ≤ 1 ∧ Z.abs (c.2 - V10Game.portal.2) ≤ 1).
Proof.
  unfold V10Game.clear_portal, V10Game.around, V10Game.portal. simpl.
  rewrite !elem_of_difference, !elem_of_singleton.
  destruct c as [x y]. simpl. change (GRID_W `div` 2) with 20.
  change (GRID_H `div` 2) with 20. split.
  - intros Hc. split; [tauto|]. intros [Hx Hy].
    assert (x = 19 ∨ x = 20 ∨ x = 21) as Hx' by lia.
    assert (y = 19 ∨ y = 20 ∨ y = 21) as Hy' by lia.
    destruct Hx' as [->|[->| ->]], Hy' as [->|[->| ->]]; simpl in Hc; tauto.
  - intros [Hb Hfar].
    repeat split; try done; intros [= -> ->]; apply Hfar; simpl; lia.
Qed.

(** ** Enemy waves *)

Lemma spawn_loop_spec {rng : Type} (randrange : rng → Z → Z → Z * rng)
  (blocked : gset cell) (hero : Hero) :
  ∀ n rnd enemies spawned,
    0 ≤ spawned < 7 →
    ∃ new,
      V10Game.spawn_loop randrange blocked hero n rnd enemies spawned
        = (enemies ++ new, spawned + Z.of_nat (length new)) ∧
      spawned + Z.of_nat (length new) ≤ 7 ∧
      Forall (λ e, in_grid (Enemy.position e) ∧ (Enemy.position e ∉ blocked) ∧
                   Enemy.position e ≠ position hero ∧
                   (randrange2_ok randrange →
                    Z.abs (Enemy.gx e - V10Game.portal.1) ≤ 4 ∧
                    Z.abs (Enemy.gy e - V10Game.portal.2) ≤ 4 ∧
                    6 ≤ Enemy.hp e < 14)) new.
Proof.
  induction n as [|n IH]; intros rnd enemies spawned Hs; simpl.
  - exists []. rewrite app_nil_r. simpl. split; [f_equal; lia|].
    split; [lia | constructor].
  - pose proof (λ Hok : randrange2_ok randrange, Hok rnd (-4) 5) as Hdx.
    destruct (randrange rnd (-4) 5) as [dx rnd1].
    pose proof (λ Hok : randrange2_ok randrange, Hok rnd1 (-4) 5) as Hdy.
    destruct (randrange rnd1 (-4) 5) as [dy rnd2].
    destruct (decide _) as [(Hx & Hy & Hb & Hh)|_]; [|by apply IH].
    pose proof (λ Hok : randrange2_ok randrange, Hok rnd2 6 14) as Hhp.
    destruct (randrange rnd2 6 14) as [hp rnd3].
    set (e := Enemy.Build _ _ hp).
    assert (in_grid (Enemy.position e) ∧ (Enemy.position e ∉ blocked) ∧
            Enemy.position e ≠ position hero ∧
            (randrange2_ok randrange →
             Z.abs (Enemy.gx e - V10Game.portal.1) ≤ 4 ∧
             Z.abs (Enemy.gy e - V10Game.portal.2) ≤ 4 ∧
             6 ≤ Enemy.hp e < 14)) as He.
    { split; [done|]. split; [done|]. split; [done|]. intros Hok.
      specialize (Hdx Hok). specialize (Hdy Hok). specialize (Hhp Hok).
      subst e. simpl in *. lia. }
    destruct (decide (7 ≤ spawned + 1)).
    + exists [e]. simpl. split; [done|]. split; [lia|]. by constructor.
    + destruct (IH rnd3 (enemies ++ [e]) (spawned + 1)) as (new & Hrun & Hle & Hall);
        [lia|].
      exists (e :: new). rewrite Hrun, <- app_assoc. simpl.
      split; [f_equal; lia|]. split; [lia|]. by constructor.
Qed.

(** X14: a wave of the v10 demo keeps the enemies already there and adds
    at most seven; each one is placed on a cell of the grid that is not
    blocked and is not the hero's, and the counter it reports is their
    number.  With a generator that keeps to its bounds each one is within
    four cells of the portal in each coordinate and has from 6 to 13 hit
    points.  Pressing the key away from the portal changes nothing. *)
Theorem spawn_wave_places_enemies {rng : Type}
  (randrange : rng → Z → Z → Z * rng) (blocked : gset cell) (hero : Hero)
  (seeded : rng) (enemies : list Enemy.enemy) :
  (∃ new,
     V10Game.spawn_wave randrange blocked hero seeded enemies
       = (enemies ++ new, Z.of_nat (length new)) ∧
     (length new ≤ 7)%nat ∧
     ∀ e, e ∈ new →
       in_grid (Enemy.position e) ∧ (Enemy.position e ∉ blocked) ∧
       Enemy.position e ≠ position hero ∧
       (randrange2_ok randrange →
        Z.abs (Enemy.gx e - V10Game.portal.1) ≤ 4 ∧
        Z.abs (Enemy.gy e - V10Game.portal.2) ≤ 4 ∧
        6 ≤ Enemy.hp e < 14)) ∧
  (¬ (Z.abs (gx hero - V10Game.portal.1) ≤ 1 ∧
      Z.abs (gy hero - V10Game.portal.2) ≤ 1) →
   V10Game.on_key_e randrange blocked hero seeded enemies = enemies).
Proof.
  split.
  - destruct (spawn_loop_spec randrange blocked hero 40 seeded enemies 0)
      as (new & Hrun & Hle & Hall); [lia|].
    exists new. unfold V10Game.spawn_wave. rewrite Hrun.
    split; [done|]. split; [lia|]. by apply Forall_forall.
  - intros Hfar. unfold V10Game.on_key_e. by rewrite decide_False.
Qed.

(** A wave drawn by the generator that always returns its lower bound:
    seven enemies on the same cell. *)
Example spawn_wave_low :
  V10Game.spawn_wave (λ (r : unit) a b, (a, r)) ∅ V10Game.hero_init tt [] =
    (replicate 7 (Enemy.Build 16 16 6), 7).
Proof. vm_compute. reflexivity. Qed.

Lemma v2_wave_spec (blocked : gset cell) (px py : Z) :
  ∀ ds acc,
    let es := foldl (λ (es : list Enemy.enemy) (d : cell),
                       let gx := px + d.1 in
                       let gy := py + d.2 in
                       if decide ((0 ≤ gx < GRID_W) ∧ (0 ≤ gy < GRID_H) ∧
                                  (gx, gy) ∉ blocked)
                       then es ++ [Enemy.Build gx gy 10] else es) acc ds in
    (length es ≤ length acc + length ds)%nat ∧
    ∀ e, e ∈ es →
      e ∈ acc ∨
      (in_grid (Enemy.position e) ∧ (Enemy.position e ∉ blocked) ∧
       Enemy.hp e = 10 ∧
       ∃ d, d ∈ ds ∧ Enemy.position e = (px + d.1, py + d.2)).
Proof.
  induction ds as [|d ds IH]; intros acc; cbv zeta in *; simpl.
  - split; [lia | auto].
  - destruct (decide _) as [(Hx & Hy & Hb)|_].
    + destruct (IH (acc ++ [Enemy.Build (px + d.1) (py + d.2) 10])) as [IH1 IH2].
      rewrite length_app in IH1. simpl in IH1. split; [lia|].
      intros e He. destruct (IH2 e He) as [Hin|(Hg & Hf & Hp & d' & Hd & Hpos)].
      * apply elem_of_app in Hin as [Hin|Hin]; [by left|].
        apply list_elem_of_singleton in Hin as ->. right.
        split; [done|]. split; [done|]. split; [done|].
        exists d. split; [left | done].
      * right. split; [done|]. split; [done|]. split; [done|].
        exists d'. split; [by right | done].
    + destruct (IH acc) as [IH1 IH2]. split; [lia|].
      intros e He. destruct (IH2 e He) as [Hin|(Hg & Hf & Hp & d' & Hd & Hpos)];
        [by left|].
      right. split; [done|]. split; [done|]. split; [done|].
      exists d'. split; [by right | done].
Qed.

(** X15: the portal of the v2 demo fires once.  Pressing the key on an
    active portal switches it off and replaces the enemies by at most six,
    each with 10 hit points, on a free cell of the grid one or two steps
    from the portal, never on the hero's cell; in every other case, and
    so on every later press, portal and enemies are left as they are. *)
Theorem v2_portal_fires_once (blocked : gset cell) (hero : Hero)
  (portal : Portal.portal) (enemies : list Enemy.enemy) :
  let r := V2Game.on_key_e blocked hero portal enemies in
  V2Game.on_key_e blocked hero r.1 r.2 = r ∧
  (r = (portal, enemies) ∨
   (Portal.active portal = true ∧
    position hero = (Portal.gx portal, Portal.gy portal) ∧
    Portal.active r.1 = false ∧
    Portal.gx r.1 = Portal.gx portal ∧ Portal.gy r.1 = Portal.gy portal ∧
    (length r.2 ≤ 6)%nat ∧
    ∀ e, e ∈ r.2 →
      in_grid (Enemy.position e) ∧ (Enemy.position e ∉ blocked) ∧
      Enemy.hp e = 10 ∧ Enemy.position e ≠ position hero ∧
      1 ≤ h (Enemy.position e) (position hero) ≤ 2)).
Proof.
  unfold V2Game.on_key_e.
  destruct (decide (position hero = (Portal.gx portal, Portal.gy portal)))
    as [Hpos|Hpos]; [|simpl; rewrite decide_False by done; auto].
  destruct (Portal.active portal) eqn:Hact;
    [|simpl; rewrite decide_True by done; rewrite Hact; auto].
  simpl. rewrite decide_True by done. split; [done|]. right.
  destruct (v2_wave_spec blocked (Portal.gx portal) (Portal.gy portal)
              V2Game.wave []) as [Hlen Hall].
  split; [done|]. split; [done|]. split; [done|]. split; [done|]. split; [done|].
  split; [exact Hlen|].
  intros e He. destruct (Hall e He) as [Hin|(Hg & Hf & Hp & d & Hd & Hde)].
  { by apply elem_of_nil in Hin. }
  split; [done|]. split; [done|]. split; [done|].
  rewrite Hpos, Hde. unfold h. simpl.
  unfold V2Game.wave in Hd. rewrite !elem_of_cons, elem_of_nil in Hd.
  destruct Hd as [->|[->|[->|[->|[->|[->|[]]]]]]]; simpl;
    (split; [intros [= ? ?]; lia | lia]).
Qed.

(** ** The diamonds of the base demo *)

(** X16: the diamonds drawn for two neighbouring cells share an edge:
    the right and bottom corners of the diamond of [(gx, gy)] are the top
    and left corners of the diamond of [(gx + 1, gy)], and its left and
    bottom corners are the top and right corners of the diamond of
    [(gx, gy + 1)], for any camera. *)
Theorem diamonds_share_edges (gx gy ox oy : Z) :
  let d (x y : Z) :=
    BaseGame.diamond_points (Base.grid_to_screen x y ox oy).1
                            (Base.grid_to_screen x y ox oy).2 in
  d gx gy !! 1%nat = d (gx + 1) gy !! 0%nat ∧
  d gx gy !! 2%nat = d (gx + 1) gy !! 3%nat ∧
  d gx gy !! 3%nat = d gx (gy + 1) !! 0%nat ∧
  d gx gy !! 2%nat = d gx (gy + 1) !! 1%nat.
Proof.
  unfold BaseGame.diamond_points, Base.grid_to_screen. simpl.
  change (TILE_W `div` 2) with 32. change (TILE_H `div` 2) with 16.
  repeat split; do 2 f_equal; lia.
Qed.

(** ** More on the paths of [astar] *)

Lemma astar_returns (iter_order : nat → gset cell → list cell) (fuel : nat)
  (start goal : cell) (blocked : gset cell)
  (run : (nat → gset cell → list cell) → nat → cell → cell → gset cell →
         result (list cell)) :
  order_ok iter_order → (enough_fuel ≤ fuel)%nat →
  run = V10.astar ∨ run = Base.astar →
  ∃ p, run iter_order fuel start goal blocked = Ok p ∧
       search_post blocked start goal p.
Proof.
  intros Ho Hf [-> | ->].
  - destruct (astar_cases fuel start goal blocked _
                (v10_astar_outcome iter_order fuel start goal blocked Ho))
      as (_ & Hok & _). exact (Hok Hf).
  - destruct (astar_cases fuel start goal blocked _
                (base_astar_outcome iter_order fuel start goal blocked Ho))
      as (_ & Hok & _). exact (Hok Hf).
Qed.

Lemma is_route_app_r (blocked : gset cell) (l1 l2 : list cell) :
  is_route blocked (l1 ++ l2) → is_route blocked l2.
Proof.
  induction l1 as [|x l1 IH]; [done|]. intros Hr. apply IH.
  by apply is_route_tail in Hr.
Qed.

Lemma route_cons (blocked : gset cell) (a c b : cell) (q : list cell) :
  edge blocked a c → route blocked c b q → route blocked a b (a :: q).
Proof.
  intros He (Hh & Hl & Hr). destruct q as [|x q]; [done|].
  simpl in Hh. injection Hh as ->. split; [done|]. split; [|done].
  by rewrite last_cons_cons.
Qed.

Lemma shortest_route_NoDup (blocked : gset cell) (p : list cell) :
  ∀ a b, route blocked a b p →
         (∀ q, route blocked a b q → (length p ≤ length q)%nat) →
         NoDup p.
Proof.
  induction p as [|x t IH]; intros a b Hr Hopt; [constructor|].
  pose proof Hr as (Hh & Hl & Hrt). simpl in Hh. injection Hh as ->.
  constructor.
  - intros Hin. apply list_elem_of_split in Hin as (t1 & t2 & ->).
    specialize (Hopt (a :: t2)). simpl in Hopt. rewrite length_app in Hopt.
    simpl in Hopt. enough (S (length t1 + S (length t2)) ≤ S (length t2))%nat by lia.
    apply Hopt. split; [done|]. split.
    + change (a :: t1 ++ a :: t2) with ((a :: t1) ++ a :: t2) in Hl.
      by rewrite last_app_cons in Hl.
    + by apply (is_route_app_r blocked (a :: t1)).
  - destruct t as [|c t']; [constructor|]. destruct Hrt as [He Hrt].
    apply (IH c b).
    + split; [done|]. split; [|done]. by rewrite last_cons_cons in Hl.
    + intros q Hq. specialize (Hopt (a :: q) (route_cons _ _ _ _ _ He Hq)).
      simpl in *. lia.
Qed.

(** X17: a path returned by [astar] never visits a cell twice. *)
Theorem astar_path_has_no_repeat
  (iter_order : nat → gset cell → list cell) (fuel : nat)
  (start goal : cell) (blocked : gset cell) (p : list cell) :
  order_ok iter_order →
  V10.astar iter_order fuel start goal blocked = Ok p ∨
  Base.astar iter_order fuel start goal blocked = Ok p →
  NoDup p.
Proof.
  intros Ho Hrun.
  assert (search_post blocked start goal p) as [[-> _]|[Hr Hopt]].
  { destruct Hrun; [by eapply v10_astar_post | by eapply base_astar_post]. }
  - constructor.
  - by eapply shortest_route_NoDup.
Qed.

Lemma astar_path_has_no_repeat_witness :
  order_ok elements_order ∧
  (V10.astar elements_order enough_fuel (0, 0) (1, 1) {[(1, 0)]}
     = Ok [(0, 0); (0, 1); (1, 1)] ∨
   Base.astar elements_order enough_fuel (0, 0) (1, 1) {[(1, 0)]}
     = Ok [(0, 0); (0, 1); (1, 1)]) ∧
  NoDup [(0, 0); (0, 1); (1, 1)].
Proof.
  assert (V10.astar elements_order enough_fuel (0, 0) (1, 1) {[(1, 0)]}
            = Ok [(0, 0); (0, 1); (1, 1)] ∨
          Base.astar elements_order enough_fuel (0, 0) (1, 1) {[(1, 0)]}
            = Ok [(0, 0); (0, 1); (1, 1)]) as Hrun
    by (left; vm_compute; reflexivity).
  split; [exact elements_order_ok|]. split; [exact Hrun|].
  exact (astar_path_has_no_repeat elements_order enough_fuel (0, 0) (1, 1)
           {[(1, 0)]} [(0, 0); (0, 1); (1, 1)] elements_order_ok Hrun).
Defined.

Lemma walk_h (blocked : gset cell) (a b : cell) (k : Z) :
  walk blocked a b k → h a b ≤ k.
Proof.
  induction 1 as [|b c k _ IH (Hs & _)]; [by rewrite h_self|].
  change (h b c = 1) in Hs. pose proof (h_triangle a b c). lia.
Qed.

(** A route along the sides of the rectangle spanned by two grid cells,
    when no obstacle lies in the rectangle. *)
Lemma manhattan_route (blocked : gset cell) (b : cell) :
  in_grid b →
  ∀ (n : nat) (a : cell),
    h a b = Z.of_nat n → in_grid a →
    (∀ c : cell, Z.min a.1 b.1 ≤ c.1 ≤ Z.max a.1 b.1 →
                 Z.min a.2 b.2 ≤ c.2 ≤ Z.max a.2 b.2 → c ∉ blocked) →
    ∃ q, route blocked a b q ∧ length q = S n.
Proof.
  intros Hb n. induction n as [|n IH]; intros a Hh Ha Hfree.
  - assert (a = b) as ->.
    { destruct a, b. unfold h in Hh. simpl in Hh. f_equal; lia. }
    exists [b]. split; [apply route_self | done].
  - set (a' := if decide (a.1 < b.1) then (a.1 + 1, a.2)
               else if decide (b.1 < a.1) then (a.1 - 1, a.2)
               else if decide (a.2 < b.2) then (a.1, a.2 + 1)
               else (a.1, a.2 - 1)).
    assert (h a a' = 1 ∧ h a' b = Z.of_nat n ∧
            Z.min a.1 b.1 ≤ a'.1 ≤ Z.max a.1 b.1 ∧
            Z.min a.2 b.2 ≤ a'.2 ≤ Z.max a.2 b.2) as (H1 & H2 & H3 & H4).
    { subst a'. destruct a as [x y], b as [u v]. unfold h in *. simpl in *.
      destruct (decide (x < u)); [simpl; lia|].
      destruct (decide (u < x)); [simpl; lia|].
      destruct (decide (y < v)); simpl; lia. }
    assert (in_grid a') as Ha'.
    { unfold in_grid in *. lia. }
    destruct (IH a' H2 Ha') as (q & Hq & Hlen).
    { intros c Hc1 Hc2. apply Hfree; lia. }
    exists (a :: q). split; [|simpl; lia].
    apply (route_cons _ _ a'); [|done].
    split; [done|]. split; [done|]. by apply Hfree.
Qed.

(** X18: a non-empty path returned by [astar] has at least as many steps
    as the Manhattan distance from the start to the goal; when both are
    cells of the grid and no obstacle lies in the rectangle they span, a
    path is returned and it has exactly that many steps. *)
Theorem astar_manhattan_steps
  (iter_order : nat → gset cell → list cell) (fuel : nat)
  (start goal : cell) (blocked : gset cell) :
  order_ok iter_order →
  (enough_fuel ≤ fuel)%nat →
  ∀ run, run = V10.astar ∨ run = Base.astar →
  ∃ p, run iter_order fuel start goal blocked = Ok p ∧
       (p ≠ [] → h start goal ≤ Z.of_nat (steps p)) ∧
       (in_grid start → in_grid goal →
        (∀ c : cell, Z.min start.1 goal.1 ≤ c.1 ≤ Z.max start.1 goal.1 →
                     Z.min start.2 goal.2 ≤ c.2 ≤ Z.max start.2 goal.2 →
                     c ∉ blocked) →
        p ≠ [] ∧ Z.of_nat (steps p) = h start goal).
Proof.
  intros Ho Hf run Hrun.
  destruct (astar_returns iter_order fuel start goal blocked run Ho Hf Hrun)
    as (p & Hp & Hpost).
  exists p. split; [done|].
  assert (∀ q, route blocked start goal q → h start goal ≤ Z.of_nat (steps q))
    as Hlow.
  { intros q Hq. pose proof (route_nonempty _ _ _ _ Hq).
    apply route_walk, walk_h in Hq. unfold steps. lia. }
  split.
  - intros Hne. destruct Hpost as [[-> _]|[Hr _]]; [done | by apply Hlow].
  - intros Hs Hg Hfree.
    assert (0 ≤ h start goal) as Hnn by (unfold h; lia).
    destruct (manhattan_route blocked goal Hg (Z.to_nat (h start goal)) start)
      as (q & Hq & Hlen); [lia | done | done |].
    destruct Hpost as [[_ Hn]|[Hr Hopt]]; [exfalso; apply Hn; by exists q|].
    pose proof (route_nonempty _ _ _ _ Hr).
    split; [intros ->; simpl in *; lia|].
    specialize (Hopt q Hq). specialize (Hlow p Hr). unfold steps in *. lia.
Qed.

Lemma search_post_same (blocked : gset cell) (c : cell) (p : list cell) :
  search_post blocked c c p → p = [c].
Proof.
  intros [[_ Hn]|[(Hh & _) Ho]].
  - exfalso. apply Hn. exists [c]. apply route_self.
  - specialize (Ho [c] (route_self blocked c)). simpl in Ho.
    destruct p as [|x [|y p]]; simpl in *; [done | | lia]. by injection Hh as ->.
Qed.

(** X19: with fuel for the whole grid, the two texts of [astar] return the
    same path for the same iteration order: the two guards of the later
    text are shortcuts that do not change the result. *)
Theorem astar_variants_agree
  (iter_order : nat → gset cell → list cell) (fuel : nat)
  (start goal : cell) (blocked : gset cell) :
  order_ok iter_order →
  (enough_fuel ≤ fuel)%nat →
  V10.astar iter_order fuel start goal blocked =
  Base.astar iter_order fuel start goal blocked.
Proof.
  intros Ho Hf.
  destruct (astar_returns iter_order fuel start goal blocked Base.astar Ho Hf)
    as (p & Hp & Hpost); [by right|].
  unfold V10.astar, V10.astar_trace.
  destruct (decide (start = goal)) as [->|Hne].
  - rewrite Hp. apply search_post_same in Hpost. by subst.
  - destruct (decide (goal ∈ blocked)) as [Hb|Hb]; [|done].
    rewrite Hp. destruct Hpost as [[-> _]|[Hr _]]; [done|].
    by destruct (route_goal_free _ _ _ _ Hr Hne).
Qed.

Lemma astar_variants_agree_witness :
  order_ok elements_order ∧ (enough_fuel ≤ enough_fuel)%nat ∧
  V10.astar elements_order enough_fuel (0, 0) (1, 0) {[(1, 0)]} =
  Base.astar elements_order enough_fuel (0, 0) (1, 0) {[(1, 0)]}.
Proof.
  split; [exact elements_order_ok|]. split; [apply le_n|].
  exact (astar_variants_agree elements_order enough_fuel (0, 0) (1, 0) {[(1, 0)]}
           elements_order_ok (le_n _)).
Defined.

Lemma search_passes (blocked : gset cell) (start goal : cell)
  (iter_order : nat → gset cell → list cell) (rfuel : nat) :
  order_ok iter_order →
  ∀ (fuel i : nat) (st : search_state) (p : list cell) (j : nat),
    Inv blocked start goal st →
    search iter_order rfuel goal blocked fuel i st = Ok (p, j) →
    (j ≤ i + size (universe start ∖ closed st))%nat.
Proof.
  intros Ho fuel. induction fuel as [|k IH]; intros i st p j HI Hs;
    (destruct (decide (open_set st = ∅)) as [He|He];
     [rewrite search_empty in Hs by done; injection Hs as _ <-; lia|]).
  - by rewrite search_0 in Hs.
  - rewrite search_S in Hs by done.
    destruct (loop_pass blocked start goal iter_order Ho st i HI He)
      as (current & gc & Hpick & Hin & Hgc & Hopt & Hstep).
    rewrite Hpick in Hs. simpl in Hs.
    destruct (decide (current = goal)) as [->|Hng].
    + destruct (reconstruct rfuel (came st) goal); simpl in Hs; try done.
      injection Hs as _ <-. lia.
    + destruct (Hstep Hng) as (st' & Hrm & Hrun & HI' & Hcl).
      rewrite Hrm in Hs. simpl in Hs. rewrite Hrun in Hs. simpl in Hs.
      specialize (IH (S i) st' p j HI' Hs).
      assert (size (universe start ∖ closed st') <
              size (universe start ∖ closed st))%nat as Hlt.
      { apply subset_size.
        pose proof (open_in_universe blocked start goal st current HI Hin) as Hu.
        rewrite Hcl. revert Hu. generalize (universe start), (closed st).
        intros U C Hu. set_solver. }
      lia.
Qed.

(** X20: whatever the fuel, a call of [astar] that returns has expanded
    at most one cell per cell of the grid, and one for the start. *)
Theorem astar_expands_each_cell_once
  (iter_order : nat → gset cell → list cell) (fuel : nat)
  (start goal : cell) (blocked : gset cell) (p : list cell) (j : nat) :
  order_ok iter_order →
  V10.astar_trace iter_order fuel start goal blocked = Ok (p, j) ∨
  Base.astar_trace iter_order fuel start goal blocked = Ok (p, j) →
  (j ≤ enough_fuel)%nat.
Proof.
  intros Ho Hrun.
  assert (Base.astar_trace iter_order fuel start goal blocked = Ok (p, j) ∨
          j = 0%nat) as [Hb| ->]; [| |lia].
  { destruct Hrun as [Hv|Hb]; [|by left]. unfold V10.astar_trace in Hv.
    destruct (decide (start = goal)); [right; by injection Hv|].
    destruct (decide (goal ∈ blocked)); [right; by injection Hv|]. by left. }
  unfold Base.astar_trace in Hb.
  pose proof (search_passes blocked start goal iter_order fuel Ho fuel 0
                (init_state start goal) p j (init_inv blocked start goal) Hb) as Hj.
  pose proof (universe_size start).
  assert (size (universe start ∖ closed (init_state start goal))
          ≤ size (universe start))%nat.
  { apply subseteq_size. intros x [Hx _]%elem_of_difference. exact Hx. }
  lia.
Qed.

Lemma astar_expands_each_cell_once_witness :
  order_ok elements_order ∧
  (V10.astar_trace elements_order enough_fuel (0, 0) (1, 0) {[(1, 0)]}
     = Ok ([], 1599%nat) ∨
   Base.astar_trace elements_order enough_fuel (0, 0) (1, 0) {[(1, 0)]}
     = Ok ([], 1599%nat)) ∧
  (1599 ≤ enough_fuel)%nat.
Proof.
  assert (V10.astar_trace elements_order enough_fuel (0, 0) (1, 0) {[(1, 0)]}
            = Ok ([], 1599%nat) ∨
          Base.astar_trace elements_order enough_fuel (0, 0) (1, 0) {[(1, 0)]}
            = Ok ([], 1599%nat)) as Hrun
    by (right; vm_compute; reflexivity).
  split; [exact elements_order_ok|]. split; [exact Hrun|].
  exact (astar_expands_each_cell_once elements_order enough_fuel (0, 0) (1, 0)
           {[(1, 0)]} [] 1599 elements_order_ok Hrun).
Defined.

(** ** Runs of the handlers *)

Lemma click_installs_shortest_route_witness :
  order_ok elements_order ∧ (enough_fuel ≤ enough_fuel)%nat ∧
  BaseGame.click_cell 672 528 640 160 = Ok (12, 11) ∧
  ∃ s', BaseGame.on_click elements_order enough_fuel {[(11, 10)]}
          BaseGame.hero_init 672 528 640 160 = Ok s' ∧
        click_result {[(11, 10)]} BaseGame.hero_init (12, 11) s'.
Proof.
  assert (BaseGame.click_cell 672 528 640 160 = Ok (12, 11)) as Hcell
    by (vm_compute; reflexivity).
  split; [exact elements_order_ok|]. split; [apply le_n|]. split; [exact Hcell|].
  exact (proj1 (click_installs_shortest_route elements_order enough_fuel
                  {[(11, 10)]} BaseGame.hero_init 672 528 640 160 (12, 11)
                  elements_order_ok (le_n _)) Hcell).
Defined.

(** The run behind the witness: the route goes round the obstacle. *)
Example click_round_obstacle :
  BaseGame.on_click elements_order enough_fuel {[(11, 10)]}
    BaseGame.hero_init 672 528 640 160
  = Ok (set_path BaseGame.hero_init [(10, 10); (10, 11); (11, 11); (12, 11)]).
Proof. vm_compute. reflexivity. Qed.

Lemma v2_click_replaces_path_witness :
  order_ok elements_order ∧ (enough_fuel ≤ enough_fuel)%nat ∧
  V2Game.click_cell 672 528 (V2Game.IntV 640) (V2Game.IntV 160) = Ok (12, 12) ∧
  in_grid (12, 12) ∧
  ∃ p, V10.astar elements_order enough_fuel (position V2Game.hero_init) (12, 12)
         {[(11, 10)]} = Ok p ∧
       V2Game.on_click elements_order enough_fuel {[(11, 10)]} V2Game.hero_init
         672 528 (V2Game.IntV 640) (V2Game.IntV 160)
         = Ok (set_path V2Game.hero_init p).
Proof.
  assert (V2Game.click_cell 672 528 (V2Game.IntV 640) (V2Game.IntV 160)
            = Ok (12, 12)) as Hcell by (vm_compute; reflexivity).
  split; [exact elements_order_ok|]. split; [apply le_n|]. split; [exact Hcell|].
  destruct (v2_click_replaces_path elements_order enough_fuel {[(11, 10)]}
              V2Game.hero_init 672 528 (V2Game.IntV 640) (V2Game.IntV 160)
              (12, 12) elements_order_ok (le_n _) Hcell)
    as (Hin & p & Hp & Hclick & _).
  split; [exact Hin|]. exists p. split; [exact Hp | exact Hclick].
Defined.

(** The run behind the witness, and a click on an obstacle next to the
    hero, which stops it. *)
Example v2_click_runs :
  V2Game.on_click elements_order enough_fuel {[(11, 10)]} V2Game.hero_init
    672 528 (V2Game.IntV 640) (V2Game.IntV 160)
  = Ok (set_path V2Game.hero_init
          [(10, 10); (10, 11); (11, 11); (11, 12); (12, 12)]) ∧
  V2Game.on_click elements_order enough_fuel {[(12, 12)]} v2_clicked
    672 528 (V2Game.IntV 640) (V2Game.IntV 160)
  = Ok (set_path v2_clicked []).
Proof. split; vm_compute; reflexivity. Qed.

Lemma hero_stays_on_free_cells_witness :
  on_route ∅ hero3 ∧ on_free_cell ∅ hero3 ∧
  rtc (V10Game.step ∅) hero3 hero3_moved ∧
  on_route ∅ hero3_moved ∧ on_free_cell ∅ hero3_moved.
Proof.
  assert (on_route ∅ hero3) as Hr.
  { unfold on_route, edge, unit_step, in_grid, GRID_W, GRID_H. simpl.
    repeat split;
      first [lia | discriminate | apply not_elem_of_empty]. }
  assert (on_free_cell ∅ hero3) as Hf.
  { unfold on_free_cell, in_grid, GRID_W, GRID_H. simpl.
    repeat split;
      first [lia | discriminate | apply not_elem_of_empty]. }
  assert (V10.update hero3 f_1_0 = Ok hero3_moved) as Hu
    by (vm_compute; reflexivity).
  assert (rtc (V10Game.step ∅) hero3 hero3_moved) as Hsteps
    by (apply rtc_once; exact (V10Game.step_update ∅ hero3 hero3_moved f_1_0 Hu)).
  split; [exact Hr|]. split; [exact Hf|]. split; [exact Hsteps|].
  exact (hero_stays_on_free_cells ∅ hero3 hero3_moved Hr Hf
           (or_intror (or_introl Hsteps))).
Defined.

Lemma hero_never_on_obstacle_witness :
  rtc (BaseGame.step (Base.IsoMap_init counting_randrange 1))
      BaseGame.hero_init base_walked ∧
  ((11, 10) ∉ Base.IsoMap_init counting_randrange 1) ∧
  on_free_cell (Base.IsoMap_init counting_randrange 1) base_walked.
Proof.
  assert (BaseGame.on_click elements_order enough_fuel
            (Base.IsoMap_init counting_randrange 1) BaseGame.hero_init
            672 528 640 160 = Ok base_clicked) as Hclick
    by (vm_compute; reflexivity).
  assert (Base.update base_clicked f_1_0 = Ok base_walked) as Hupdate
    by (vm_compute; reflexivity).
  assert (rtc (BaseGame.step (Base.IsoMap_init counting_randrange 1))
              BaseGame.hero_init base_walked) as Hsteps.
  { eapply rtc_l.
    - exact (BaseGame.step_click _ elements_order enough_fuel BaseGame.hero_init
               base_clicked 672 528 640 160 elements_order_ok Hclick).
    - apply rtc_once.
      exact (BaseGame.step_update _ base_clicked base_walked f_1_0 Hupdate). }
  pose proof (proj1 hero_never_on_obstacle Z counting_randrange 1 base_walked
                Hsteps) as Hfree.
  split; [exact Hsteps|]. split; [exact (proj2 Hfree) | exact Hfree].
Defined.

Lemma astar_manhattan_steps_witness :
  order_ok elements_order ∧ (enough_fuel ≤ enough_fuel)%nat ∧
  ∃ p, Base.astar elements_order enough_fuel (0, 0) (2, 1) ∅ = Ok p ∧
       (p ≠ [] → h (0, 0) (2, 1) ≤ Z.of_nat (steps p)).
Proof.
  split; [exact elements_order_ok|]. split; [apply le_n|].
  destruct (astar_manhattan_steps elements_order enough_fuel (0, 0) (2, 1) ∅
              elements_order_ok (le_n _) Base.astar (or_intror eq_refl))
    as (p & Hp & Hlow & _).
  exists p. split; [exact Hp | exact Hlow].
Defined.

(** The example of a free 5 x 5 corner: three steps from [(0,0)] to
    [(2,1)], the Manhattan distance. *)
Example astar_three_steps :
  (steps <$> Base.astar elements_order enough_fuel (0, 0) (2, 1) ∅) = Ok 3%nat ∧
  h (0, 0) (2, 1) = 3.
Proof. split; vm_compute; reflexivity. Qed.
